(** * Bookmarks: the activity feed, the follow graph, likes and the view ranking

    A shallow embedding of the request handlers of the Bookmarks project
    (apps [actions], [account] and [images]) together with the properties
    its specification states about them.

    Conventions.
    - A timestamp is a [Z]: microseconds since the epoch, the resolution of
      a Python [datetime].  [timedelta s] is [datetime.timedelta(seconds=s)].
    - A database table without a primary key of interest is the [list] of
      its rows in insertion order; a table looked up by primary key is a
      [gmap] from the key to the row; a many-to-many join table is the
      [gset] of its (unique) pairs.
    - A handler that may raise returns a [result]; a handler that writes
      threads the state it writes explicitly. *)

From Stdlib Require Import ZArith Lia DecimalString DecimalZ.
From stdpp Require Import base decidable option list sorting strings gmap.

Local Open Scope Z_scope.

(** ** Time *)

Definition timedelta (seconds : Z) : Z := seconds * 1000000.

(** ** django.contrib.auth and django.contrib.contenttypes

    Only what the handlers read: a user's primary key and username, and
    the model a generically referenced object belongs to. *)

Module Auth.
Record User := { id : Z; username : string }.

#[global] Instance User_eq_dec : EqDecision User.
Proof. solve_decision. Defined.
End Auth.

Module ContentTypes.
(** One content type per model of the project. *)
Inductive ContentType := CtUser | CtProfile | CtContact | CtAction | CtImage.

#[global] Instance ContentType_eq_dec : EqDecision ContentType.
Proof. solve_decision. Defined.

(** A persisted model instance as a generic foreign key sees it. *)
Record Object := { model : ContentType; pk : Z }.

#[global] Instance Object_eq_dec : EqDecision Object.
Proof. solve_decision. Defined.

Definition get_for_model (obj : Object) : ContentType := model obj.
End ContentTypes.

(** ** actions/models.py, actions/utils.py *)

Module Actions.
Import Auth ContentTypes.

Record Action := {
  user_id : Z;
  verb : string;
  created : Z;
  target_ct : option ContentType;
  target_id : option Z
}.

#[global] Instance Action_eq_dec : EqDecision Action.
Proof. solve_decision. Defined.

(** [Action(user=user, verb=verb, target=target)] followed by [save()]:
    the generic foreign key stores the target's content type and primary
    key (both NULL without a target), [auto_now_add] stamps the row with
    the clock at the time of the save. *)
Definition new_action (saved : Z) (user : User) (verb : string)
    (target : option Object) : Action :=
  {| user_id := id user;
     verb := verb;
     created := saved;
     target_ct := get_for_model <$> target;
     target_id := pk <$> target |}.

(** The query set [similar_actions] of [create_action]: the rows of the
    same user and verb created at or after [last_minute], narrowed to the
    target's content type and id when a target is given. *)
Definition similar_actions (now : Z) (user : User) (verb : string)
    (target : option Object) (objects : list Action) : list Action :=
  let last_minute := now - timedelta 60 in
  let similar_actions :=
    filter (λ a, user_id a = id user ∧ Actions.verb a = verb
                 ∧ last_minute ≤ created a) objects in
  match target with
  | Some target =>
      let target_ct := get_for_model target in
      filter (λ a, Actions.target_ct a = Some target_ct
                   ∧ Actions.target_id a = Some (pk target)) similar_actions
  | None => similar_actions
  end.

(** [Meta.ordering = ['-created']]: newest first; the order among rows
    created at the same instant is the database's. *)
Definition newest_first (a b : Action) : Prop := created b ≤ created a.

#[global] Instance newest_first_dec : RelDecision newest_first.
Proof. intros a b. unfold newest_first. apply _. Defined.

Definition ordering (rows : list Action) : list Action :=
  merge_sort newest_first rows.

(** [create_action(user, verb, target=None)].  [now] is the clock read on
    entry, [saved] the clock read by [auto_now_add] when the row is
    saved.  Returns the function's result and the table afterwards. *)
Definition create_action (now saved : Z) (user : User) (verb : string)
    (target : option Object) (objects : list Action) : bool * list Action :=
  match similar_actions now user verb target objects with
  | [] => (true, objects ++ [new_action saved user verb target])
  | _ :: _ => (false, objects)
  end.
End Actions.

(** ** Exceptions, responses and requests *)

Inductive Exception :=
| Http404
| DoesNotExist (model : ContentTypes.ContentType)
| MultipleObjectsReturned (model : ContentTypes.ContentType)
| ValueError
| ConnectionError (reason : string).

#[global] Instance Exception_eq_dec : EqDecision Exception.
Proof. solve_decision. Defined.

Definition result (A : Type) : Type := Exception + A.

(** Python's [str] of an integer: its canonical decimal text.  This is
    also how the redis client encodes an integer argument. *)
Definition str (z : Z) : string := NilZero.string_of_int (Z.to_int z).

(** Python's [int] on the text [str] produces.  The handlers are stated
    over an arbitrary coercion [int : string → option Z] ([None] is
    [ValueError]); this one instantiates it.  It reads canonical decimals
    only: Python's [int] also takes surrounding blanks, a plus sign and
    underscores between digits, texts no instance below depends on. *)
Definition int_decimal (s : string) : option Z :=
  Z.of_int <$> NilZero.int_of_string s.

(** Truth value of [request.POST.get(name)]: [None] and the empty string
    are false. *)
Definition truthy (value : option string) : bool :=
  match value with
  | Some s => bool_decide (s ≠ "")
  | None => false
  end.

(** [l.index(x)]: the first position of [x]; [None] is [ValueError]. *)
Fixpoint index (x : Z) (l : list Z) : option nat :=
  match l with
  | [] => None
  | y :: l => if decide (y = x) then Some 0%nat else S <$> index x l
  end.

(** [list.sort(key=...)]: every key is computed first (any of them may
    raise), then the list is sorted by key, equal keys keeping their
    order. *)
Fixpoint insort {A} (x : nat * A) (l : list (nat * A)) : list (nat * A) :=
  match l with
  | [] => [x]
  | y :: l' => if decide (x.1 ≤ y.1)%nat then x :: y :: l' else y :: insort x l'
  end.

Definition list_sort {A} (key : A → option nat) (l : list A) : option (list A) :=
  keys ← mapM key l;
  Some (snd <$> foldr insort [] (zip keys l)).

(** ** The key-value store behind the client [r] *)

Module Redis.
(** Modelled from the spec: the redis server is not part of the
    repository; section 6 of the specification gives the interface the
    handlers rely on, [INCR(key) -> integer], [ZINCRBY(set, delta, member)]
    and [ZRANGE(set, start, stop, desc) -> ordered sequence of member].
    The state is the integer-valued keys and the sorted sets (member to
    score); counters and scores are unbounded integers.  [unreachable]
    holds the reason when the server cannot be reached, and then every
    command raises [ConnectionError] with it. *)
Record Store := {
  unreachable : option string;
  strings : gmap string Z;
  zsets : gmap string (gmap string Z)
}.

Definition empty : Store :=
  {| unreachable := None; strings := ∅; zsets := ∅ |}.

Definition zset (name : string) (s : Store) : gmap string Z :=
  default ∅ (zsets s !! name).

Definition zscore (name value : string) (s : Store) : option Z :=
  zset name s !! value.

(** Modelled from the spec: [INCR(key) -> integer]; a key that does not
    exist counts as 0. *)
Definition incr (name : string) (s : Store) : result Z * Store :=
  match unreachable s with
  | Some reason => (inl (ConnectionError reason), s)
  | None =>
      let value := default 0 (strings s !! name) + 1 in
      (inr value,
       {| unreachable := None;
          strings := <[name := value]> (strings s);
          zsets := zsets s |})
  end.

(** Modelled from the spec: [ZINCRBY(set, delta, member)]; a member that
    is not in the set counts as score 0. *)
Definition zincrby (name : string) (amount : Z) (value : string)
    (s : Store) : result Z * Store :=
  match unreachable s with
  | Some reason => (inl (ConnectionError reason), s)
  | None =>
      let score := default 0 (zscore name value s) + amount in
      (inr score,
       {| unreachable := None;
          strings := strings s;
          zsets := <[name := <[value := score]> (zset name s)]> (zsets s) |})
  end.

Definition score_le (a b : string * Z) : Prop := a.2 ≤ b.2.
Definition score_ge (a b : string * Z) : Prop := b.2 ≤ a.2.

#[global] Instance score_le_dec : RelDecision score_le.
Proof. intros a b. unfold score_le. apply _. Defined.

#[global] Instance score_ge_dec : RelDecision score_ge.
Proof. intros a b. unfold score_ge. apply _. Defined.

(** Modelled from the spec: the members of a sorted set by rank, lowest
    score first, or highest first with [desc]; the order among equal
    scores is the server's. *)
Definition ranked (desc : bool) (z : gmap string Z) : list (string * Z) :=
  if desc then merge_sort score_ge (map_to_list z)
  else merge_sort score_le (map_to_list z).

(** Modelled from the spec: the ranks [start..end_] (inclusive, negative
    counting from the end) of a ranked list. *)
Definition rank_range {A} (start end_ : Z) (l : list A) : list A :=
  let llen := Z.of_nat (length l) in
  let start := if decide (start < 0) then llen + start else start in
  let end_ := if decide (end_ < 0) then llen + end_ else end_ in
  let start := if decide (start < 0) then 0 else start in
  if decide (end_ < start ∨ llen ≤ start) then []
  else
    let end_ := if decide (llen ≤ end_) then llen - 1 else end_ in
    take (Z.to_nat (end_ - start + 1)) (drop (Z.to_nat start) l).

(** Modelled from the spec: [ZRANGE(set, start, stop, desc)]. *)
Definition zrange (name : string) (start end_ : Z) (desc : bool)
    (s : Store) : result (list string) * Store :=
  match unreachable s with
  | Some reason => (inl (ConnectionError reason), s)
  | None => (inr (rank_range start end_ (fst <$> ranked desc (zset name s))), s)
  end.
End Redis.

(** ** account/models.py *)

Module AccountModels.
Import Auth.

Record Contact := { user_from : Z; user_to : Z; created : Z }.

#[global] Instance Contact_eq_dec : EqDecision Contact.
Proof. solve_decision. Defined.

(** [user.following.values_list('id', flat=True)]: the users [user] has a
    contact to. *)
Definition following (user : User) (contacts : list Contact) : list Z :=
  user_to <$> filter (λ c, user_from c = id user) contacts.

(** [user.followers.add(obj)]: a contact from [obj] to [user] is created
    unless one exists. *)
Definition followers_add (saved : Z) (user obj : User)
    (contacts : list Contact) : list Contact :=
  if decide (Exists (λ c, user_from c = id obj ∧ user_to c = id user) contacts)
  then contacts
  else contacts ++ [{| user_from := id obj; user_to := id user; created := saved |}].

(** [user.followers.remove(obj)]: every contact from [obj] to [user] is
    deleted. *)
Definition followers_remove (user obj : User)
    (contacts : list Contact) : list Contact :=
  filter (λ c, ¬ (user_from c = id obj ∧ user_to c = id user)) contacts.
End AccountModels.

(** ** images/models.py *)

Module ImagesModels.
Record Image := {
  user_id : Z;
  title : string;
  slug : string;
  url : string;
  image : string;
  description : string;
  created : Z;
  total_likes : Z
}.

#[global] Instance Image_eq_dec : EqDecision Image.
Proof. solve_decision. Defined.

(** An instance in memory: the primary key and the columns. *)
Definition ImageInstance : Type := Z * Image.

(** [Meta.ordering = ['-created']]. *)
Definition newest_first (a b : ImageInstance) : Prop := created b.2 ≤ created a.2.

#[global] Instance newest_first_dec : RelDecision newest_first.
Proof. intros a b. unfold newest_first. apply _. Defined.

Definition ordering (rows : list ImageInstance) : list ImageInstance :=
  merge_sort newest_first rows.

Definition with_total_likes (n : Z) (i : Image) : Image :=
  {| user_id := user_id i; title := title i; slug := slug i; url := url i;
     image := image i; description := description i; created := created i;
     total_likes := n |}.

Definition with_slug (s : string) (i : Image) : Image :=
  {| user_id := user_id i; title := title i; slug := s; url := url i;
     image := image i; description := description i; created := created i;
     total_likes := total_likes i |}.
End ImagesModels.

(** ** The state the handlers run against, and handlers as computations *)

Record World := {
  users : list Auth.User;
  contacts : list AccountModels.Contact;
  actions : list Actions.Action;
  images : gmap Z ImagesModels.Image;
  images_users_like : gset (Z * Z);
  redis : Redis.Store
}.

Definition with_contacts (f : list AccountModels.Contact → list AccountModels.Contact)
    (w : World) : World :=
  {| users := users w; contacts := f (contacts w); actions := actions w;
     images := images w; images_users_like := images_users_like w;
     redis := redis w |}.

Definition with_actions (f : list Actions.Action → list Actions.Action)
    (w : World) : World :=
  {| users := users w; contacts := contacts w; actions := f (actions w);
     images := images w; images_users_like := images_users_like w;
     redis := redis w |}.

Definition with_images (f : gmap Z ImagesModels.Image → gmap Z ImagesModels.Image)
    (w : World) : World :=
  {| users := users w; contacts := contacts w; actions := actions w;
     images := f (images w); images_users_like := images_users_like w;
     redis := redis w |}.

Definition with_images_users_like (f : gset (Z * Z) → gset (Z * Z))
    (w : World) : World :=
  {| users := users w; contacts := contacts w; actions := actions w;
     images := images w; images_users_like := f (images_users_like w);
     redis := redis w |}.

Definition with_redis (s : Redis.Store) (w : World) : World :=
  {| users := users w; contacts := contacts w; actions := actions w;
     images := images w; images_users_like := images_users_like w;
     redis := s |}.

(** A computation reads and writes the world and either returns or raises;
    what was written before an exception stays written. *)
Definition M (A : Type) : Type := World → result A * World.

#[global] Instance M_ret : MRet M := λ A a w, (inr a, w).

#[global] Instance M_bind : MBind M := λ A B k m w,
  match m w with
  | (inr a, w') => k a w'
  | (inl e, w') => (inl e, w')
  end.

Definition raise {A} (e : Exception) : M A := λ w, (inl e, w).

Definition gets {A} (f : World → A) : M A := λ w, (inr (f w), w).

Definition modify (f : World → World) : M unit := λ w, (inr tt, f w).

Definition or_raise {A} (e : Exception) (o : option A) : M A :=
  match o with
  | Some a => mret a
  | None => raise e
  end.

(** [try: body except E: handler], [handles] telling which exceptions are
    an [E]. *)
Definition try_except {A} (body : M A) (handles : Exception → bool)
    (handler : M A) : M A := λ w,
  match body w with
  | (inl e, w') => if handles e then handler w' else (inl e, w')
  | (inr a, w') => (inr a, w')
  end.

(** A redis command issued through the module-level client [r]. *)
Definition command {A} (c : Redis.Store → result A * Redis.Store) : M A := λ w,
  let '(res, s) := c (redis w) in (res, with_redis s w).

Module Http.
(** A request as a handler's body sees it: the user the session resolved
    and the form parameters.  The decorators [login_required] and
    [require_POST] answer anonymous requests and requests of another
    method before the body runs. *)
Record Request := { user : Auth.User; POST : gmap string string }.

Inductive Context :=
| DashboardContext (section : string) (actions : list Actions.Action)
| DetailContext (section : string) (image : ImagesModels.ImageInstance) (total_views : Z)
| RankingContext (section : string) (most_viewed : list ImagesModels.ImageInstance).

Inductive Response :=
| HttpResponse (content : string)
| JsonResponse (status : string)
| Render (template : string) (context : Context).
End Http.

(** ** account/views.py *)

Module AccountViews.
Import Auth ContentTypes AccountModels Http.

(** [get_object_or_404(User, username=username)]. *)
Definition get_user_or_404 (username : string) : M User :=
  objects ← gets users;
  match filter (λ u, Auth.username u = username) objects with
  | [] => raise Http404
  | [u] => mret u
  | _ :: _ :: _ => raise (MultipleObjectsReturned CtUser)
  end.

(** [dashboard(request)].  [select_related] and [prefetch_related] only
    say how the rows are loaded. *)
Definition dashboard (request : Request) : M Response :=
  objects ← gets actions;
  let actions := filter (λ a, Actions.user_id a ≠ id (user request)) objects in
  following_ids ← gets (λ w, following (user request) (contacts w));
  let actions :=
    match following_ids with
    | [] => actions
    | _ :: _ => filter (λ a, Actions.user_id a ∈ following_ids) actions
    end in
  let actions := take 10 (Actions.ordering actions) in
  mret (Render "account/dashboard.html" (DashboardContext "dashboard" actions)).

(** [user_follow(request)]; [saved] is the clock [auto_now_add] reads if a
    contact is created. *)
Definition user_follow (saved : Z) (request : Request) : M Response :=
  let username := POST request !! "username" in
  (if truthy username then
     user ← get_user_or_404 (default "" username);
     if decide (id (Http.user request) ≠ id user) then
       modify (with_contacts (followers_add saved user (Http.user request)))
     else mret tt
   else mret tt);;
  mret (HttpResponse "User followed successfully").

(** [user_unfollow(request)]. *)
Definition user_unfollow (request : Request) : M Response :=
  let username := POST request !! "username" in
  (if truthy username then
     user ← get_user_or_404 (default "" username);
     if decide (id (Http.user request) ≠ id user) then
       modify (with_contacts (followers_remove user (Http.user request)))
     else mret tt
   else mret tt);;
  mret (HttpResponse "User unfollowed successfully").
End AccountViews.

(** [create_action] run against the world's action table. *)
Definition create_action (now saved : Z) (user : Auth.User) (verb : string)
    (target : option ContentTypes.Object) : M bool := λ w,
  let '(created, objects) :=
    Actions.create_action now saved user verb target (actions w) in
  (inr created, with_actions (λ _, objects) w).

(** ** images/signals.py, images/views.py *)

Module ImagesViews.
Import Auth ContentTypes ImagesModels Http.

Section Handlers.

(** [django.utils.text.slugify], and the coercion of a form value to an
    integer primary key (Python's [int]; [None] is [ValueError]). *)
Context (slugify : string → string) (int : string → option Z).

(** [Image.save()] of an instance that has its primary key: an empty slug
    is derived from the title, then the row is written under the key.
    (The first save of a new instance, where the database assigns the key
    and [auto_now_add] stamps [created], is not modelled; the handlers modelled here
    only save instances they fetched.) *)
Definition save (instance : ImageInstance) : M ImageInstance :=
  let instance :=
    if decide (slug instance.2 = "")
    then (instance.1, with_slug (slugify (title instance.2)) instance.2)
    else instance in
  modify (with_images (<[instance.1 := instance.2]>));;
  mret instance.

(** [instance.users_like.count()]. *)
Definition users_like (pk : Z) (w : World) : gset (Z * Z) :=
  filter (λ row, row.1 = pk) (images_users_like w).

Definition users_like_count (pk : Z) : M Z :=
  gets (λ w, Z.of_nat (size (users_like pk w))).

(** The receiver [users_like_changed] of [m2m_changed]; it returns the
    instance it updated in place. *)
Definition users_like_changed (instance : ImageInstance) : M ImageInstance :=
  count ← users_like_count instance.1;
  save (instance.1, with_total_likes count instance.2).

(** [image.users_like.add(user)]: the pair is inserted unless it is
    there, and [m2m_changed] is sent before and after.  The receiver is
    taken as connected to the signal, as section 9 of the specification
    describes it (the application configuration that imports signals.py
    is not among the sources). *)
Definition users_like_add (instance : ImageInstance) (user : User)
    : M ImageInstance :=
  instance ← users_like_changed instance;
  modify (with_images_users_like (λ rows, rows ∪ {[ (instance.1, id user) ]}));;
  users_like_changed instance.

(** [image.users_like.remove(user)]: the signal is sent before and after
    the join row is deleted. *)
Definition users_like_remove (instance : ImageInstance) (user : User)
    : M ImageInstance :=
  instance ← users_like_changed instance;
  modify (with_images_users_like (λ rows, rows ∖ {[ (instance.1, id user) ]}));;
  users_like_changed instance.

(** [get_object_or_404(Image, id=id, slug=slug)]. *)
Definition get_image_or_404 (id : Z) (slug : string) : M ImageInstance :=
  row ← gets (λ w, images w !! id);
  match row with
  | Some row =>
      if decide (ImagesModels.slug row = slug) then mret (id, row)
      else raise Http404
  | None => raise Http404
  end.

(** [Image.objects.get(id=image_id)] for a form value [image_id]. *)
Definition get_image (image_id : string) : M ImageInstance :=
  id ← or_raise ValueError (int image_id);
  row ← gets (λ w, images w !! id);
  match row with
  | Some row => mret (id, row)
  | None => raise (DoesNotExist CtImage)
  end.

(** [Image.objects.filter(id__in=ids)]. *)
Definition filter_id_in (ids : list Z) : M (list ImageInstance) :=
  gets (λ w, ordering (filter (λ x, x.1 ∈ ids) (map_to_list (images w)))).

Definition is_image_does_not_exist (e : Exception) : bool :=
  bool_decide (e = DoesNotExist CtImage).

(** [image_detail(request, id, slug)]. *)
Definition image_detail (request : Request) (id : Z) (slug : string)
    : M Response :=
  image ← get_image_or_404 id slug;
  total_views ← command (Redis.incr ("image:" +:+ str image.1 +:+ ":views"));
  command (Redis.zincrby "image_ranking" 1 (str image.1));;
  mret (Render "images/image/detail.html"
          (DetailContext "images" image total_views)).

(** [image_like(request)]; [now] and [saved] are the clock readings of the
    [create_action] call on the like branch. *)
Definition image_like (now saved : Z) (request : Request) : M Response :=
  let image_id := POST request !! "id" in
  let action := POST request !! "action" in
  if truthy image_id && truthy action then
    try_except
      (image ← get_image (default "" image_id);
       (if decide (action = Some "like") then
          image ← users_like_add image (user request);
          create_action now saved (user request) "likes"
            (Some {| model := CtImage; pk := image.1 |});;
          mret tt
        else
          users_like_remove image (user request);;
          mret tt);;
       mret (JsonResponse "ok"))
      is_image_does_not_exist
      (mret (JsonResponse "error"))
  else mret (JsonResponse "error").

(** [image_ranking(request)]. *)
Definition image_ranking (request : Request) : M Response :=
  members ← command (Redis.zrange "image_ranking" 0 (-1) true);
  let image_ranking := take 10 members in
  image_ranking_ids ← or_raise ValueError (mapM int image_ranking);
  most_viewed ← filter_id_in image_ranking_ids;
  most_viewed ← or_raise ValueError
    (list_sort (λ x, index x.1 image_ranking_ids) most_viewed);
  mret (Render "images/image/ranking.html"
          (RankingContext "images" most_viewed)).

End Handlers.
End ImagesViews.

(** ** The application as a transition system *)

Inductive Call :=
| Dashboard (request : Http.Request)
| UserFollow (saved : Z) (request : Http.Request)
| UserUnfollow (request : Http.Request)
| ImageDetail (request : Http.Request) (id : Z) (slug : string)
| ImageLike (now saved : Z) (request : Http.Request)
| ImageRanking (request : Http.Request).

Definition handle (slugify : string → string) (int : string → option Z)
    (c : Call) : M Http.Response :=
  match c with
  | Dashboard request => AccountViews.dashboard request
  | UserFollow saved request => AccountViews.user_follow saved request
  | UserUnfollow request => AccountViews.user_unfollow request
  | ImageDetail request id slug => ImagesViews.image_detail request id slug
  | ImageLike now saved request =>
      ImagesViews.image_like slugify int now saved request
  | ImageRanking request => ImagesViews.image_ranking int request
  end.

(** The worlds the application can be in, starting from one in which
    nobody follows anybody yet: a step is a call of one of the handlers
    above, or anything else that writes no contact row.  The latter stands
    for the remaining views (registration, profile edit, image upload, the
    listings), for the admin screens, which are registered for [Profile],
    [Image] and [Action] only, and for the cascade that deletes the
    contacts of a deleted user. *)
Inductive reachable (slugify : string → string) (int : string → option Z)
    : World → Prop :=
| reachable_init w : contacts w = [] → reachable slugify int w
| reachable_step w c :
    reachable slugify int w → reachable slugify int (handle slugify int c w).2
| reachable_elsewhere w w' :
    reachable slugify int w →
    (∀ c, c ∈ contacts w' → c ∈ contacts w) →
    reachable slugify int w'.

(** [k] calls of the same handler in sequence, with their results. *)
Fixpoint times {A} (k : nat) (m : M A) : M (list A) :=
  match k with
  | O => mret []
  | S k => a ← m; l ← times k m; mret (a :: l)
  end.

(** ** Vocabulary of the properties *)

(** An edge of the follow graph: some contact row leads from [a] to [b]. *)
Definition follows (contacts : list AccountModels.Contact) (a b : Z) : Prop :=
  ∃ c, c ∈ contacts ∧ AccountModels.user_from c = a ∧ AccountModels.user_to c = b.

(** The rows the specification puts in a viewer's feed, read off the
    contact rows: those whose author the viewer follows, or, when no
    contact row leads from the viewer to anybody, everybody's but the
    viewer's. *)
Definition in_feed (viewer : Auth.User) (contacts : list AccountModels.Contact)
    (a : Actions.Action) : Prop :=
  follows contacts (Auth.id viewer) (Actions.user_id a) ∨
  ((∀ b, ¬ follows contacts (Auth.id viewer) b) ∧
   Actions.user_id a ≠ Auth.id viewer).

#[global] Instance in_feed_dec viewer contacts a : Decision (in_feed viewer contacts a).
Proof.
  destruct (decide
    (Exists (λ c, AccountModels.user_from c = Auth.id viewer ∧
                  AccountModels.user_to c = Actions.user_id a) contacts ∨
     (Forall (λ c, AccountModels.user_from c ≠ Auth.id viewer) contacts ∧
      Actions.user_id a ≠ Auth.id viewer))) as [H|H];
    [left|right]; unfold in_feed, follows.
  - destruct H as [H|[H Hother]].
    + left. by apply Exists_exists in H.
    + right. split; [|done]. intros b (c & Hc & Hfrom & _).
      rewrite Forall_forall in H. by apply (H c).
  - intros [Hfollowed|[Hnobody Hother]]; apply H.
    + left. by apply Exists_exists.
    + right. split; [|done]. apply Forall_forall. intros c Hc Hfrom.
      apply (Hnobody (AccountModels.user_to c)). by exists c.
Defined.

(** The denormalised like count agrees with the join table. *)
Definition likes_consistent (w : World) : Prop :=
  ∀ pk row, images w !! pk = Some row →
    ImagesModels.total_likes row = Z.of_nat (size (ImagesViews.users_like pk w)).

(** Every member of the ranking is an image id as [image_detail] writes
    it. *)
Definition ranking_wf (s : Redis.Store) : Prop :=
  ∀ member, member ∈ dom (Redis.zset "image_ranking" s) → ∃ id : Z, member = str id.

(** The score of an image in the ranking, 0 when it has none. *)
Definition ranking_score (s : Redis.Store) (id : Z) : Z :=
  default 0 (Redis.zscore "image_ranking" (str id) s).

(** The view counter of an image, 0 when it has none. *)
Definition views (s : Redis.Store) (id : Z) : Z :=
  default 0 (Redis.strings s !! ("image:" +:+ str id +:+ ":views")).

(** [a] stands no later than [b] in the list [ids]. *)
Definition rank_le (ids : list Z) (a b : Z) : Prop :=
  ∃ n m, ids !! n = Some a ∧ ids !! m = Some b ∧ (n ≤ m)%nat.

(** [a] ranks no lower than [b] by score. *)
Definition score_desc (s : Redis.Store) (a b : Z) : Prop :=
  ranking_score s b ≤ ranking_score s a.

(** The order [list_sort] puts keyed elements in. *)
Definition key_le {X} (p q : nat * X) : Prop := (p.1 ≤ q.1)%nat.

(** A computation leaves the component [f] of the world as it found it. *)
Definition frames {A T} (f : World → T) (m : M A) : Prop :=
  ∀ w, f (m w).2 = f w.

(** A computation only reads the world. *)
Definition read_only {A} (m : M A) : Prop := ∀ w, (m w).2 = w.

(** ** images/views.py: the image list *)

(** django.core.paginator as [image_list] uses it: [Paginator(object_list,
    per_page)] with no orphans and an empty first page allowed. *)
Module Paginator.
Inductive InvalidPage := PageNotAnInteger | EmptyPage.

(** A page number as a caller passes it: [None], the text of a query
    parameter, or an integer. *)
Inductive Number := NoNumber | TextNumber (s : string) | IntNumber (z : Z).

Record Page (A : Type) := { object_list : list A; number : Z }.
Arguments object_list {A} _.
Arguments number {A} _.

Section Paginator.
Context {A : Type} (int : string → option Z).
Context (objects : list A) (per_page : Z).

Definition count : Z := Z.of_nat (length objects).

(** [ceil(max(1, count) / per_page)]. *)
Definition num_pages : Z :=
  let hits := Z.max 1 count in (hits + per_page - 1) / per_page.

(** [int(number)]: [None] is [TypeError] or [ValueError]. *)
Definition to_int (number : Number) : option Z :=
  match number with
  | NoNumber => None
  | TextNumber s => int s
  | IntNumber z => Some z
  end.

Definition validate_number (number : Number) : InvalidPage + Z :=
  match to_int number with
  | None => inl PageNotAnInteger
  | Some number =>
      if decide (number < 1) then inl EmptyPage
      else if decide (num_pages < number) then inl EmptyPage
      else inr number
  end.

(** [paginator.page(number)]: the slice [objects[bottom:top]]. *)
Definition page (number : Number) : InvalidPage + Page A :=
  match validate_number number with
  | inl e => inl e
  | inr number =>
      let bottom := (number - 1) * per_page in
      let top := bottom + per_page in
      let top := if decide (count ≤ top) then count else top in
      inr {| object_list :=
               take (Z.to_nat (top - bottom)) (drop (Z.to_nat bottom) objects);
             number := number |}
  end.
End Paginator.
End Paginator.

Module ImagesList.
Import Auth ImagesModels.

(** A GET request as [image_list] reads it. *)
Record Request := { user : User; GET : gmap string string }.

Inductive Response :=
| HttpResponse (content : string)
| Render (template section : string) (images : Paginator.Page ImageInstance).

(** [image_list(request)].  The view writes nothing, so it is a function
    of the world; an [InvalidPage] raised inside an [except] clause is not
    caught and is the result. *)
Definition image_list (int : string → option Z) (request : Request)
    (w : World) : Paginator.InvalidPage + Response :=
  let images := ordering (map_to_list (images w)) in
  let page := GET request !! "page" in
  let images_only := GET request !! "images_only" in
  let shown (p : Paginator.Page ImageInstance) :=
    if truthy images_only
    then inr (Render "images/image/list_images.html" "images" p)
    else inr (Render "images/image/list.html" "images" p) in
  match Paginator.page int images 8
          (from_option Paginator.TextNumber Paginator.NoNumber page) with
  | inr p => shown p
  | inl Paginator.PageNotAnInteger =>
      match Paginator.page int images 8 (Paginator.IntNumber 1) with
      | inr p => shown p
      | inl e => inl e
      end
  | inl Paginator.EmptyPage =>
      if truthy images_only then inr (HttpResponse "")
      else
        match Paginator.page int images 8
                (Paginator.IntNumber (Paginator.num_pages images 8)) with
        | inr p => shown p
        | inl e => inl e
        end
  end.
End ImagesList.

(** ** images/forms.py *)

Module ImagesForms.
Inductive FormError := ValidationError (message : string) | IndexError.

(** The character ['.']. *)
Definition dot : Ascii.ascii := Ascii.ascii_of_nat 46.

(** [s.rsplit('.', 1)]: [s] cut at its last dot, or [s] alone. *)
Fixpoint rsplit_dot (s : string) : option (string * string) :=
  match s with
  | EmptyString => None
  | String c s' =>
      match rsplit_dot s' with
      | Some (before, after) => Some (String c before, after)
      | None => if Ascii.eqb c dot then Some (EmptyString, s') else None
      end
  end.

Definition rsplit (s : string) : list string :=
  match rsplit_dot s with
  | Some (before, after) => [before; after]
  | None => [s]
  end.

(** [s.lower()] on text held as bytes: the letters A to Z are lowered.  (No
    character outside ASCII lowers to a letter of jpg, jpeg or png.) *)
Definition lower_ascii (c : Ascii.ascii) : Ascii.ascii :=
  let n := Ascii.N_of_ascii c in
  if decide (65 ≤ n ∧ n ≤ 90)%N then Ascii.ascii_of_N (n + 32) else c.

Fixpoint lower (s : string) : string :=
  match s with
  | EmptyString => EmptyString
  | String c s' => String (lower_ascii c) (lower s')
  end.

Definition valid_extensions : list string := ["jpg"; "jpeg"; "png"].

(** [ImageCreateForm.clean_url()], given [cleaned_data['url']]. *)
Definition clean_url (url : string) : FormError + string :=
  match rsplit url !! 1%nat with
  | None => inl IndexError
  | Some extension =>
      let extension := lower extension in
      if decide (extension ∈ valid_extensions) then inr url
      else inl (ValidationError
                  "The given URL does not match valid image extensions.")
  end.
End ImagesForms.

(** ** More vocabulary of the properties *)

(** A later row that an earlier one would have suppressed: same actor and
    verb, and the later has no target or the earlier's target. *)
Definition suppresses (earlier later : Actions.Action) : Prop :=
  Actions.user_id earlier = Actions.user_id later ∧
  Actions.verb earlier = Actions.verb later ∧
  ((Actions.target_ct later = None ∧ Actions.target_id later = None) ∨
   (is_Some (Actions.target_ct later) ∧
    Actions.target_ct earlier = Actions.target_ct later ∧
    Actions.target_id earlier = Actions.target_id later)).

(** Such rows are stamped more than 60 seconds apart. *)
Definition spaced (objects : list Actions.Action) : Prop :=
  ∀ i j a b, (i < j)%nat → objects !! i = Some a → objects !! j = Some b →
    suppresses a b → Actions.created a + timedelta 60 < Actions.created b.

(** The action tables that calls of [create_action] build from an empty
    one when they run one after another, each call's query and save done
    before the next call starts, the clock not running backwards between
    the entry of a call and its save.  Calls that overlap (the query of
    one falling between the query and the save of another) are not among
    them: the function takes no lock, and two such calls can both
    insert. *)
Inductive recorded : list Actions.Action → Prop :=
| recorded_nil : recorded []
| recorded_call now saved user verb target objects :
    recorded objects → now ≤ saved →
    recorded (Actions.create_action now saved user verb target objects).2.

(** Every image's view counter equals its score in the ranking. *)
Definition counters_agree (s : Redis.Store) : Prop :=
  ∀ pk, views s pk = ranking_score s pk.

(** No two contact rows for the same pair of users. *)
Definition contacts_unique (contacts : list AccountModels.Contact) : Prop :=
  NoDup ((λ c, (AccountModels.user_from c, AccountModels.user_to c)) <$> contacts).

(** The [number]-th run of [per_page] objects, counting runs from 1. *)
Definition slice {A} (objects : list A) (per_page number : Z) : list A :=
  take (Z.to_nat per_page) (drop (Z.to_nat ((number - 1) * per_page)) objects).

(** * Properties *)

(** ** The action recorder *)

Section ActionRecorder.
Import Auth ContentTypes Actions.

Implicit Types (user : User) (verb : string) (target : option Object).
Implicit Types (objects : list Action).

Lemma similar_actions_app now user verb target objects1 objects2 :
  similar_actions now user verb target (objects1 ++ objects2) =
  similar_actions now user verb target objects1 ++
  similar_actions now user verb target objects2.
Proof.
  unfold similar_actions. destruct target; by rewrite !filter_app.
Qed.

Lemma elem_of_similar_actions now user verb target objects a :
  a ∈ similar_actions now user verb target objects ↔
  a ∈ objects ∧ user_id a = id user ∧ Actions.verb a = verb ∧
  now - timedelta 60 ≤ created a ∧
  match target with
  | Some obj => target_ct a = Some (get_for_model obj) ∧ target_id a = Some (pk obj)
  | None => True
  end.
Proof.
  unfold similar_actions. destruct target as [obj|].
  - rewrite !list_elem_of_filter. tauto.
  - rewrite list_elem_of_filter. tauto.
Qed.

Lemma similar_actions_nil now user verb target objects :
  similar_actions now user verb target objects = [] ↔
  ∀ a, a ∈ similar_actions now user verb target objects → False.
Proof.
  split.
  - intros -> a Ha. by apply not_elem_of_nil in Ha.
  - intros H. destruct (similar_actions _ _ _ _ _) as [|a l]; [done|].
    destruct (H a). left.
Qed.

(** A later call looks at a shorter past: nothing similar then, nothing
    similar now. *)
Lemma similar_actions_later now1 now2 user verb target objects :
  now1 ≤ now2 →
  similar_actions now1 user verb target objects = [] →
  similar_actions now2 user verb target objects = [].
Proof.
  rewrite !similar_actions_nil. intros Hle H a Ha. apply (H a).
  apply elem_of_similar_actions in Ha. apply elem_of_similar_actions.
  intuition lia.
Qed.

(** The row a call inserts is similar to the same call for as long as it
    is inside the window. *)
Lemma similar_actions_new now saved user verb target :
  now - timedelta 60 ≤ saved →
  similar_actions now user verb target [new_action saved user verb target] =
  [new_action saved user verb target].
Proof.
  intros Hle. unfold similar_actions.
  destruct target as [obj|]; simpl;
    repeat (rewrite filter_cons_True; [|by simpl]); by rewrite ?filter_nil.
Qed.

Lemma similar_actions_new_expired now saved user verb1 verb2 target1 target2 :
  saved < now - timedelta 60 →
  similar_actions now user verb2 target2 [new_action saved user verb1 target1] = [].
Proof.
  intros Hlt. apply similar_actions_nil. intros a Ha.
  apply elem_of_similar_actions in Ha as (Ha%list_elem_of_singleton & _ & _ & Hc & _).
  subst a. simpl in Hc. lia.
Qed.

Lemma similar_actions_new_other now saved user verb1 verb2 target1 target2 :
  verb1 ≠ verb2 ∨ (∃ obj, target2 = Some obj ∧ target1 ≠ Some obj) →
  similar_actions now user verb2 target2 [new_action saved user verb1 target1] = [].
Proof.
  intros Hne. apply similar_actions_nil. intros a Ha.
  apply elem_of_similar_actions in Ha as (Ha%list_elem_of_singleton & _ & Hv & _ & Ht).
  subst a. simpl in *. destruct Hne as [Hne | (obj & -> & Hne)]; [done|].
  destruct Ht as [Hct Hid]. destruct target1 as [[m1 k1]|]; [|done].
  destruct obj as [m2 k2]. simpl in *. congruence.
Qed.

Lemma create_action_inserts now saved user verb target objects :
  similar_actions now user verb target objects = [] →
  create_action now saved user verb target objects =
  (true, objects ++ [new_action saved user verb target]).
Proof. unfold create_action. by intros ->. Qed.

Lemma create_action_suppressed now saved user verb target objects :
  similar_actions now user verb target objects ≠ [] →
  create_action now saved user verb target objects = (false, objects).
Proof.
  unfold create_action. by destruct (similar_actions _ _ _ _ _).
Qed.

(** C1. Recording the same (actor, verb, target) twice within 60 seconds:
    on a table holding nothing similar in the minute before the first
    call, the first call returns [True] and inserts exactly one row, the
    second returns [False] and leaves the table as the first call left
    it. *)
Theorem create_action_twice_within_window
    now1 saved1 now2 saved2 user verb target objects :
  similar_actions now1 user verb target objects = [] →
  now1 ≤ saved1 →
  now2 ≤ now1 + timedelta 60 →
  let first := create_action now1 saved1 user verb target objects in
  let second := create_action now2 saved2 user verb target first.2 in
  (first.1, second.1) = (true, false) ∧
  first.2 = objects ++ [new_action saved1 user verb target] ∧
  second.2 = first.2 ∧
  length second.2 = S (length objects).
Proof.
  intros Hnone Hclock Hwithin first second.
  assert (Hfirst : first = (true, objects ++ [new_action saved1 user verb target]))
    by by apply create_action_inserts.
  assert (Hsecond : second = (false, first.2)).
  { apply create_action_suppressed. rewrite Hfirst. simpl.
    rewrite similar_actions_app, similar_actions_new by lia.
    by destruct (similar_actions now2 user verb target objects). }
  rewrite Hsecond, Hfirst. simpl. rewrite length_app. simpl.
  repeat split; lia.
Qed.

Lemma create_action_twice_within_window_fresh :
  let user := {| id := 1; username := "ana" |} in
  let target := Some {| model := CtImage; pk := 7 |} in
  let first := create_action 0 5 user "bookmarked image" target [] in
  let second :=
    create_action (timedelta 30) (timedelta 30 + 5) user "bookmarked image"
      target first.2 in
  (first.1, second.1) = (true, false) ∧
  first.2 = [] ++ [new_action 5 user "bookmarked image" target] ∧
  second.2 = first.2 ∧
  length second.2 = 1%nat.
Proof.
  intros user target.
  apply (create_action_twice_within_window 0 5 (timedelta 30) (timedelta 30 + 5)
           user "bookmarked image" target []); [reflexivity | lia | vm_compute; discriminate].
Defined.

(** C2, as the code has it. Two calls of the same actor that differ in
    verb, or whose second call names a target the first call did not
    record, both insert and both return [True], whatever the time between
    them.  (A second call without a target is narrowed by actor and verb
    only, so a first call with a target suppresses it.) *)
Theorem create_action_distinct_keys
    now1 saved1 now2 saved2 user verb1 verb2 target1 target2 objects :
  similar_actions now1 user verb1 target1 objects = [] →
  similar_actions now2 user verb2 target2 objects = [] →
  verb1 ≠ verb2 ∨ (∃ obj, target2 = Some obj ∧ target1 ≠ Some obj) →
  let first := create_action now1 saved1 user verb1 target1 objects in
  let second := create_action now2 saved2 user verb2 target2 first.2 in
  (first.1, second.1) = (true, true) ∧
  second.2 = objects ++ [new_action saved1 user verb1 target1;
                         new_action saved2 user verb2 target2].
Proof.
  intros Hnone1 Hnone2 Hne first second.
  assert (Hfirst : first = (true, objects ++ [new_action saved1 user verb1 target1]))
    by by apply create_action_inserts.
  assert (Hsecond : second = (true, first.2 ++ [new_action saved2 user verb2 target2])).
  { apply create_action_inserts. rewrite Hfirst. simpl.
    rewrite similar_actions_app, Hnone2. simpl.
    by apply similar_actions_new_other. }
  rewrite Hsecond, Hfirst. simpl. by rewrite <- app_assoc.
Qed.

Lemma create_action_distinct_keys_fresh :
  let user := {| id := 1; username := "ana" |} in
  let first := create_action 0 5 user "likes" None [] in
  let second :=
    create_action (timedelta 30) (timedelta 30 + 5) user "likes"
      (Some {| model := CtImage; pk := 7 |}) first.2 in
  (first.1, second.1) = (true, true) ∧
  second.2 = [] ++ [new_action 5 user "likes" None;
                    new_action (timedelta 30 + 5) user "likes"
                      (Some {| model := CtImage; pk := 7 |})].
Proof.
  intros user.
  apply (create_action_distinct_keys 0 5 (timedelta 30) (timedelta 30 + 5)
           user "likes" "likes" None (Some {| model := CtImage; pk := 7 |}) []);
    [reflexivity | reflexivity |].
  right. exists {| model := CtImage; pk := 7 |}. split; [reflexivity | discriminate].
Defined.

(** C2 as stated fails: after a call with a target, a call of the same
    actor and verb without a target, 30 seconds later, is suppressed
    although the two differ in target. *)
Lemma create_action_without_target_suppressed :
  let user := {| id := 1; username := "ana" |} in
  let target1 := Some {| model := CtImage; pk := 7 |} in
  let target2 := @None Object in
  let first := create_action 0 5 user "likes" target1 [] in
  let second := create_action (timedelta 30) (timedelta 30 + 5) user "likes" target2 first.2 in
  target1 ≠ target2 ∧ timedelta 30 ≤ 0 + timedelta 60 ∧
  (first.1, second.1) = (true, false) ∧ length second.2 = 1%nat.
Proof. repeat split; [discriminate | vm_compute; discriminate]. Qed.

(** C3, as the code has it. A second call strictly more than 60 seconds
    after the first call's row was stamped is not suppressed by it: both
    calls return [True] and both insert. *)
Theorem create_action_after_window
    now1 saved1 now2 saved2 user verb target objects :
  similar_actions now1 user verb target objects = [] →
  now1 ≤ saved1 →
  saved1 + timedelta 60 < now2 →
  let first := create_action now1 saved1 user verb target objects in
  let second := create_action now2 saved2 user verb target first.2 in
  (first.1, second.1) = (true, true) ∧
  second.2 = objects ++ [new_action saved1 user verb target;
                         new_action saved2 user verb target] ∧
  length second.2 = S (S (length objects)).
Proof.
  intros Hnone Hclock Hafter first second.
  assert (0 ≤ timedelta 60) by (unfold timedelta; lia).
  assert (Hfirst : first = (true, objects ++ [new_action saved1 user verb target]))
    by by apply create_action_inserts.
  assert (Hsecond : second = (true, first.2 ++ [new_action saved2 user verb target])).
  { apply create_action_inserts. rewrite Hfirst. simpl.
    rewrite similar_actions_app.
    rewrite (similar_actions_later now1 now2) by (done || lia). simpl.
    apply similar_actions_new_expired. lia. }
  rewrite Hsecond, Hfirst. simpl. rewrite <- app_assoc, length_app. simpl.
  repeat split; lia.
Qed.

Lemma create_action_after_window_fresh :
  let user := {| id := 1; username := "ana" |} in
  let target := Some {| model := CtImage; pk := 7 |} in
  let first := create_action 0 0 user "bookmarked image" target [] in
  let second := create_action (timedelta 61) (timedelta 61) user "bookmarked image" target first.2 in
  (first.1, second.1) = (true, true) ∧
  second.2 = [] ++ [new_action 0 user "bookmarked image" target;
                    new_action (timedelta 61) user "bookmarked image" target] ∧
  length second.2 = 2%nat.
Proof.
  intros user target.
  apply (create_action_after_window 0 0 (timedelta 61) (timedelta 61)
           user "bookmarked image" target []); [reflexivity | lia | reflexivity].
Defined.

(** C3 as stated fails at exactly 60 seconds: a row stamped at [t] still
    suppresses the call made at [t + 60s], because the window is
    [created >= now - 60s]. *)
Lemma create_action_at_sixty_seconds_suppressed :
  let user := {| id := 1; username := "ana" |} in
  let target := Some {| model := CtImage; pk := 7 |} in
  let first := create_action 0 0 user "bookmarked image" target [] in
  let second := create_action (0 + timedelta 60) (timedelta 60) user "bookmarked image" target first.2 in
  0 + timedelta 60 ≤ 0 + timedelta 60 ∧
  (first.1, second.1) = (true, false) ∧ length second.2 = 1%nat.
Proof. repeat split; vm_compute; discriminate. Qed.

(** The scenario of the specification: the same bookmark recorded at 0 s,
    30 s and 61 s is stored twice. *)
Example create_action_scenario :
  let user := {| id := 1; username := "ana" |} in
  let target := Some {| model := CtImage; pk := 7 |} in
  let record t objects := create_action (timedelta t) (timedelta t) user
                            "bookmarked image" target objects in
  let first := record 0 [] in
  let second := record 30 first.2 in
  let third := record 61 second.2 in
  (first.1, second.1, third.1) = (true, false, true) ∧ length third.2 = 2%nat.
Proof. split; reflexivity. Qed.

End ActionRecorder.

(** ** Computations *)

Section Computations.
Context {A B T : Type}.
Implicit Types (f : World → T) (w : World).

Lemma run_bind (m : M A) (k : A → M B) w :
  (m ≫= k) w =
  match m w with
  | (inr a, w') => k a w'
  | (inl e, w') => (inl e, w')
  end.
Proof. reflexivity. Qed.

Lemma run_bind_inr (m : M A) (k : A → M B) w a w' :
  m w = (inr a, w') → (m ≫= k) w = k a w'.
Proof. intros H. by rewrite run_bind, H. Qed.

Lemma run_bind_inl (m : M A) (k : A → M B) w e w' :
  m w = (inl e, w') → (m ≫= k) w = (inl e, w').
Proof. intros H. by rewrite run_bind, H. Qed.

Lemma run_gets_bind (g : World → A) (k : A → M B) w :
  (gets g ≫= k) w = k (g w) w.
Proof. reflexivity. Qed.

Lemma run_modify_bind (g : World → World) (k : unit → M B) w :
  (modify g ≫= k) w = k tt (g w).
Proof. reflexivity. Qed.

Lemma run_ret_bind (a : A) (k : A → M B) w :
  ((mret a : M A) ≫= k) w = k a w.
Proof. reflexivity. Qed.

Lemma run_raise_bind e (k : A → M B) w : (raise e ≫= k) w = (inl e, w).
Proof. reflexivity. Qed.

Lemma run_ret (a : A) w : (mret a : M A) w = (inr a, w).
Proof. reflexivity. Qed.

Lemma frames_ret f (a : A) : frames f (mret a).
Proof. by intros w. Qed.

Lemma frames_raise f e : frames f (raise (A := A) e).
Proof. by intros w. Qed.

Lemma frames_gets f (g : World → A) : frames f (gets g).
Proof. by intros w. Qed.

Lemma frames_or_raise f e (o : option A) : frames f (or_raise e o).
Proof. by destruct o. Qed.

Lemma frames_modify f (g : World → World) :
  (∀ w, f (g w) = f w) → frames f (modify g).
Proof. intros H w. apply H. Qed.

Lemma frames_command f (c : Redis.Store → result A * Redis.Store) :
  (∀ s w, f (with_redis s w) = f w) → frames f (command c).
Proof. intros H w. unfold command. destruct (c (redis w)). apply H. Qed.

Lemma frames_bind f (m : M A) (k : A → M B) :
  frames f m → (∀ a, frames f (k a)) → frames f (m ≫= k).
Proof.
  intros Hm Hk w. rewrite run_bind. specialize (Hm w).
  destruct (m w) as [[e|a] w']; simpl in *; [done|].
  by rewrite Hk.
Qed.

Lemma frames_try_except f (body handler : M A) handles :
  frames f body → frames f handler → frames f (try_except body handles handler).
Proof.
  intros Hb Hh w. unfold try_except. specialize (Hb w).
  destruct (body w) as [[e|a] w']; simpl in *; [|done].
  destruct (handles e); simpl; [|done]. by rewrite Hh.
Qed.

End Computations.

Lemma frames_create_action {T} (f : World → T) now saved user verb target :
  (∀ g w, f (with_actions g w) = f w) →
  frames f (create_action now saved user verb target).
Proof.
  intros H w. unfold create_action.
  destruct (Actions.create_action _ _ _ _ _ _). apply H.
Qed.

Lemma read_only_frames {A} (m : M A) : read_only m ↔ frames (λ w, w) m.
Proof. done. Qed.

Create HintDb frames discriminated.

#[local] Hint Resolve frames_ret frames_raise frames_gets frames_or_raise
  frames_modify frames_command frames_bind frames_try_except
  frames_create_action : frames.

(** ** The follow graph *)

Section FollowGraph.
Import Auth ContentTypes AccountModels Http AccountViews.

Implicit Types (contacts : list Contact) (w : World) (request : Request).

Lemma elem_of_following user contacts b :
  b ∈ following user contacts ↔ follows contacts (id user) b.
Proof.
  unfold following, follows. rewrite list_elem_of_fmap. split.
  - intros (c & -> & [Hfrom Hc]%list_elem_of_filter). by exists c.
  - intros (c & Hc & Hfrom & <-). exists c. split; [done|].
    apply list_elem_of_filter. done.
Qed.

Lemma follows_followers_add saved user obj contacts a b :
  follows (followers_add saved user obj contacts) a b ↔
  follows contacts a b ∨ (a = id obj ∧ b = id user).
Proof.
  unfold followers_add, follows. case_decide as Hex.
  - split; [by left|]. intros [H | [-> ->]]; [done|].
    apply Exists_exists in Hex as (c & Hc & ? & ?). eauto.
  - split.
    + intros (c & [Hc | ->%list_elem_of_singleton]%elem_of_app & <- & <-);
        [left; eauto | by right].
    + intros [(c & Hc & ?) | [-> ->]].
      * exists c. split; [|done]. apply elem_of_app. by left.
      * eexists. split; [apply elem_of_app; right; by apply list_elem_of_singleton|done].
Qed.

Lemma follows_followers_remove user obj contacts a b :
  follows (followers_remove user obj contacts) a b ↔
  follows contacts a b ∧ ¬ (a = id obj ∧ b = id user).
Proof.
  unfold followers_remove, follows. split.
  - intros (c & [Hn Hc]%list_elem_of_filter & <- & <-). eauto.
  - intros [(c & Hc & <- & <-) Hn]. exists c. split; [|done].
    by apply list_elem_of_filter.
Qed.

Lemma get_user_or_404_read_only username : read_only (get_user_or_404 username).
Proof.
  intros w. unfold get_user_or_404. rewrite run_bind. simpl.
  by destruct (filter _ _) as [|? [|? ?]].
Qed.

Lemma filter_none {X} (P : X → Prop) `{∀ x, Decision (P x)} (l : list X) :
  (∀ x, x ∈ l → ¬ P x) → filter P l = [].
Proof.
  induction l as [|x l IH]; intros Hl; [done|].
  rewrite filter_cons_False by (apply Hl; left).
  apply IH. intros y Hy. apply Hl. by right.
Qed.

(** A persisted user is whom their own username resolves to. *)
Lemma get_user_or_404_self user w :
  user ∈ users w → NoDup (username <$> users w) →
  get_user_or_404 (username user) w = (inr user, w).
Proof.
  intros Hin Hnd. unfold get_user_or_404. rewrite run_bind. simpl.
  assert (filter (λ u, username u = username user) (users w) = [user]) as ->; [|done].
  induction (users w) as [|u l IH]; [by apply not_elem_of_nil in Hin|].
  rewrite fmap_cons in Hnd. apply NoDup_cons in Hnd as [Hu Hnd].
  destruct (decide (username u = username user)) as [Heq|Hne].
  - rewrite filter_cons_True by done.
    assert (Hnot : user ∉ l).
    { intros Hl. apply Hu. rewrite Heq. apply list_elem_of_fmap. eauto. }
    apply elem_of_cons in Hin as [-> | Hin]; [|done].
    f_equal. apply filter_none. intros x Hx Hxu. apply Hu.
    rewrite <- Hxu. apply list_elem_of_fmap. eauto.
  - rewrite filter_cons_False by done.
    apply elem_of_cons in Hin as [-> | Hin]; [done|]. by apply IH.
Qed.

Lemma user_follow_own_username saved request w :
  truthy (POST request !! "username") = false ∨
  (POST request !! "username" = Some (username (user request)) ∧
   user request ∈ users w ∧ NoDup (username <$> users w)) →
  user_follow saved request w = (inr (HttpResponse "User followed successfully"), w).
Proof.
  unfold user_follow. intros [-> | (Hname & Hin & Hnd)]; [done|].
  destruct (truthy _); [|done].
  rewrite Hname. simpl default. rewrite run_bind.
  rewrite (run_bind_inr _ _ _ _ _ (get_user_or_404_self _ _ Hin Hnd)).
  by rewrite decide_False by (intros Hne; by apply Hne).
Qed.

Lemma user_unfollow_own_username request w :
  truthy (POST request !! "username") = false ∨
  (POST request !! "username" = Some (username (user request)) ∧
   user request ∈ users w ∧ NoDup (username <$> users w)) →
  user_unfollow request w = (inr (HttpResponse "User unfollowed successfully"), w).
Proof.
  unfold user_unfollow. intros [-> | (Hname & Hin & Hnd)]; [done|].
  destruct (truthy _); [|done].
  rewrite Hname. simpl default. rewrite run_bind.
  rewrite (run_bind_inr _ _ _ _ _ (get_user_or_404_self _ _ Hin Hnd)).
  by rewrite decide_False by (intros Hne; by apply Hne).
Qed.

(** A request naming an existing user is answered with the success
    message whether or not it changed the graph. *)
Lemma user_follow_response saved request w user :
  get_user_or_404 (default "" (POST request !! "username")) w = (inr user, w) →
  (user_follow saved request w).1 = inr (HttpResponse "User followed successfully").
Proof.
  intros Hget. unfold user_follow. destruct (truthy _); [|done].
  rewrite run_bind, (run_bind_inr _ _ _ _ _ Hget). by case_decide.
Qed.

Lemma user_unfollow_response request w user :
  get_user_or_404 (default "" (POST request !! "username")) w = (inr user, w) →
  (user_unfollow request w).1 = inr (HttpResponse "User unfollowed successfully").
Proof.
  intros Hget. unfold user_unfollow. destruct (truthy _); [|done].
  rewrite run_bind, (run_bind_inr _ _ _ _ _ Hget). by case_decide.
Qed.

(** What a follow request does to the graph: nothing, or one edge from
    the requester to somebody else. *)
Lemma user_follow_graph saved request w :
  contacts (user_follow saved request w).2 = contacts w ∨
  ∃ user, id (Http.user request) ≠ id user ∧
    contacts (user_follow saved request w).2 =
    followers_add saved user (Http.user request) (contacts w).
Proof.
  unfold user_follow. destruct (truthy _); [|by left].
  rewrite !run_bind. pose proof (get_user_or_404_read_only (default "" (POST request !! "username")) w) as Hro.
  destruct (get_user_or_404 _ w) as [[e|user] w']; simpl in Hro; subst w'; [by left|].
  case_decide; [|by left]. right. by exists user.
Qed.

Lemma user_unfollow_graph request w :
  contacts (user_unfollow request w).2 = contacts w ∨
  ∃ user, id (Http.user request) ≠ id user ∧
    contacts (user_unfollow request w).2 =
    followers_remove user (Http.user request) (contacts w).
Proof.
  unfold user_unfollow. destruct (truthy _); [|by left].
  rewrite !run_bind. pose proof (get_user_or_404_read_only (default "" (POST request !! "username")) w) as Hro.
  destruct (get_user_or_404 _ w) as [[e|user] w']; simpl in Hro; subst w'; [by left|].
  case_decide; [|by left]. right. by exists user.
Qed.

Lemma dashboard_read_only request : read_only (dashboard request).
Proof. by intros w. Qed.

End FollowGraph.

Section OtherHandlers.
Import Http ImagesViews.
Context (slugify : string → string) (int : string → option Z).

Lemma save_frames_contacts instance : frames contacts (save slugify instance).
Proof. unfold save. auto with frames. Qed.

Lemma image_like_frames_contacts now saved request :
  frames contacts (image_like slugify int now saved request).
Proof.
  unfold image_like, get_image, users_like_add, users_like_remove,
    users_like_changed, users_like_count, save.
  destruct (truthy _ && truthy _); [|auto with frames].
  apply frames_try_except; [|auto with frames].
  apply frames_bind.
  { apply frames_bind; [auto with frames|]. intros pk.
    apply frames_bind; [auto with frames|]. intros [row|]; auto with frames. }
  intros image. apply frames_bind; [|auto with frames].
  case_decide; auto 20 with frames.
Qed.

Lemma image_detail_frames_contacts request id slug :
  frames contacts (image_detail request id slug).
Proof.
  unfold image_detail, get_image_or_404.
  apply frames_bind.
  { apply frames_bind; [auto with frames|].
    intros [row|]; [case_decide|]; auto with frames. }
  auto 10 with frames.
Qed.

Lemma image_ranking_frames_contacts request :
  frames contacts (image_ranking int request).
Proof. unfold image_ranking, filter_id_in. auto 20 with frames. Qed.

End OtherHandlers.

Section FollowGraphInvariant.
Import Auth AccountModels Http AccountViews.
Context (slugify : string → string) (int : string → option Z).

Lemma handle_contacts c w :
  contacts (handle slugify int c w).2 = contacts w ∨
  ∃ user obj, id obj ≠ id user ∧
    (contacts (handle slugify int c w).2 = followers_remove user obj (contacts w) ∨
     ∃ saved, contacts (handle slugify int c w).2 = followers_add saved user obj (contacts w)).
Proof.
  destruct c as [request|saved request|request|request i slug|now saved request|request];
    simpl.
  - by left.
  - destruct (user_follow_graph saved request w) as [?|(user & ? & ?)]; [by left|].
    right. exists user, (Http.user request). eauto.
  - destruct (user_unfollow_graph request w) as [?|(user & ? & ?)]; [by left|].
    right. exists user, (Http.user request). eauto.
  - left. apply image_detail_frames_contacts.
  - left. apply image_like_frames_contacts.
  - left. apply image_ranking_frames_contacts.
Qed.

Lemma handle_no_self_edge c w :
  (∀ u, ¬ follows (contacts w) u u) →
  ∀ u, ¬ follows (contacts (handle slugify int c w).2) u u.
Proof.
  intros Hinv u.
  destruct (handle_contacts c w) as [-> | (user & obj & Hne & [-> | [saved ->]])].
  - apply Hinv.
  - rewrite follows_followers_remove. intros [? _]. by eapply Hinv.
  - rewrite follows_followers_add. intros [? | [-> Heq]]; [by eapply Hinv|].
    by apply Hne.
Qed.

(** C9. A follow or unfollow request that names the requester, or names
    nobody, changes nothing and is answered with the success message; a
    request naming any existing user is answered with the success message
    whether or not an edge was added or removed; and in every world the
    handlers can reach from an empty contact table no user follows
    themselves. *)
Theorem follow_graph_no_self_edge :
  (∀ saved request w,
     truthy (POST request !! "username") = false ∨
     (POST request !! "username" = Some (username (user request)) ∧
      user request ∈ users w ∧ NoDup (username <$> users w)) →
     user_follow saved request w =
       (inr (HttpResponse "User followed successfully"), w) ∧
     user_unfollow request w =
       (inr (HttpResponse "User unfollowed successfully"), w)) ∧
  (∀ saved request w user,
     get_user_or_404 (default "" (POST request !! "username")) w = (inr user, w) →
     (user_follow saved request w).1 =
       inr (HttpResponse "User followed successfully") ∧
     (user_unfollow request w).1 =
       inr (HttpResponse "User unfollowed successfully")) ∧
  (∀ w, reachable slugify int w → ∀ u, ¬ follows (contacts w) u u).
Proof.
  split; [|split].
  - intros saved request w H. split.
    + by apply user_follow_own_username.
    + by apply user_unfollow_own_username.
  - intros saved request w user Hget. split.
    + by eapply user_follow_response.
    + by eapply user_unfollow_response.
  - intros w Hreach. induction Hreach as [w Hnil | w c _ IH | w w' _ IH Hsub].
    + intros u (c & Hc & _). rewrite Hnil in Hc. by apply not_elem_of_nil in Hc.
    + by apply handle_no_self_edge.
    + intros u (c & Hc & Hfrom & Hto). apply (IH u). exists c. auto.
Qed.

End FollowGraphInvariant.

Lemma follow_graph_no_self_edge_ana :
  let ana := {| Auth.id := 1; Auth.username := "ana" |} in
  let bob := {| Auth.id := 2; Auth.username := "bob" |} in
  let w := {| users := [ana; bob]; contacts := []; actions := []; images := ∅;
              images_users_like := ∅; redis := Redis.empty |} in
  let own := {| Http.user := ana; Http.POST := {[ "username" := "ana" ]} |} in
  let other := {| Http.user := ana; Http.POST := {[ "username" := "bob" ]} |} in
  (AccountViews.user_follow 0 own w =
     (inr (Http.HttpResponse "User followed successfully"), w) ∧
   AccountViews.user_unfollow own w =
     (inr (Http.HttpResponse "User unfollowed successfully"), w)) ∧
  ((AccountViews.user_follow 0 other w).1 =
     inr (Http.HttpResponse "User followed successfully") ∧
   (AccountViews.user_unfollow other w).1 =
     inr (Http.HttpResponse "User unfollowed successfully")) ∧
  ¬ follows (contacts (handle (λ s, s) int_decimal (UserFollow 0 other) w).2) 1 1.
Proof.
  intros ana bob w own other.
  pose proof (follow_graph_no_self_edge (λ s, s) int_decimal)
    as (Hown & Hother & Hreach).
  split; [|split].
  - apply (Hown 0 own w). right. split; [reflexivity|].
    split; [by left | apply (bool_decide_unpack _); vm_compute; exact I].
  - apply (Hother 0 other w bob). reflexivity.
  - apply Hreach. apply reachable_step, reachable_init. reflexivity.
Defined.

(** The graph after ana follows bob holds that one edge; asking to follow
    oneself, or an unknown user, adds nothing. *)
Example user_follow_edges :
  let ana := {| Auth.id := 1; Auth.username := "ana" |} in
  let bob := {| Auth.id := 2; Auth.username := "bob" |} in
  let w := {| users := [ana; bob]; contacts := []; actions := []; images := ∅;
              images_users_like := ∅; redis := Redis.empty |} in
  let post name := {| Http.user := ana; Http.POST := {[ "username" := name ]} |} in
  contacts (AccountViews.user_follow 5 (post "bob") w).2 =
    [{| AccountModels.user_from := 1; AccountModels.user_to := 2;
        AccountModels.created := 5 |}] ∧
  contacts (AccountViews.user_follow 5 (post "ana") w).2 = [] ∧
  AccountViews.user_follow 5 (post "eve") w = (inl Http404, w).
Proof. repeat split. Qed.

(** ** The feed *)

Section Feed.
Import Auth AccountModels Http AccountViews.

Lemma newest_first_total : Total Actions.newest_first.
Proof. intros a b. unfold Actions.newest_first. lia. Qed.

Lemma newest_first_trans : Transitive Actions.newest_first.
Proof. intros a b c. unfold Actions.newest_first. lia. Qed.

#[local] Existing Instances newest_first_total newest_first_trans.

Lemma StronglySorted_take {X} (R : relation X) n (l : list X) :
  StronglySorted R l → StronglySorted R (take n l).
Proof.
  intros H. rewrite <- (take_drop n l) in H. by apply StronglySorted_app_1_l in H.
Qed.

(** The first [n] rows of an ordered table are ordered, and none of the
    rows left out comes before any of them. *)
Lemma take_ordering_spec n (rows : list Actions.Action) :
  let feed := take n (Actions.ordering rows) in
  let rest := drop n (Actions.ordering rows) in
  feed ++ rest ≡ₚ rows ∧
  Sorted Actions.newest_first feed ∧
  (∀ a b, a ∈ feed → b ∈ rest → Actions.created b ≤ Actions.created a) ∧
  length feed = Nat.min n (length rows).
Proof.
  intros feed rest. unfold feed, rest, Actions.ordering.
  pose proof (StronglySorted_merge_sort Actions.newest_first rows) as Hs.
  split; [by rewrite take_drop, merge_sort_Permutation|].
  split; [by apply StronglySorted_Sorted, StronglySorted_take|].
  split.
  - intros a b Ha Hb. rewrite <- (take_drop n (merge_sort _ rows)) in Hs.
    apply (StronglySorted_app_1_elem_of _ _ _ _ _ Hs Ha Hb).
  - by rewrite length_take, merge_sort_Permutation.
Qed.

(** The rows [dashboard] selects, whatever the follow graph: never the
    viewer's own, and only those of followed users when there are any. *)
Lemma dashboard_selection request w :
  dashboard request w =
    (inr (Render "account/dashboard.html" (DashboardContext "dashboard"
       (take 10 (Actions.ordering
          (filter (λ a, Actions.user_id a ≠ id (user request) ∧
                        (following (user request) (contacts w) = [] ∨
                         Actions.user_id a ∈ following (user request) (contacts w)))
             (actions w)))))), w).
Proof.
  unfold dashboard. rewrite !run_gets_bind, run_ret. do 5 f_equal.
  destruct (following (user request) (contacts w)) as [|b l] eqn:Hf; f_equal.
  - apply list_filter_iff. intros a. split; [intros ?; split; [done | by left] | by intros [? _]].
  - rewrite list_filter_filter. apply list_filter_iff. intros a. split.
    + intros [? ?]. eauto.
    + intros [? [?|?]]; done.
Qed.

(** C6. For a viewer who does not follow themselves (the follow graph
    never holds such an edge), the dashboard shows the newest 10 of the
    rows of the users the viewer follows, or, if the viewer follows
    nobody, of the rows that are not the viewer's own, following being
    read off the contact rows that lead from the viewer: the feed is sorted
    newest first, has at most 10 rows, and together with the rows [rest]
    it leaves out (none of them newer than a row shown) it is exactly the
    selected rows. *)
Theorem dashboard_feed request w :
  ¬ follows (contacts w) (id (user request)) (id (user request)) →
  ∃ feed rest,
    dashboard request w =
      (inr (Render "account/dashboard.html" (DashboardContext "dashboard" feed)), w) ∧
    feed ++ rest ≡ₚ filter (in_feed (user request) (contacts w)) (actions w) ∧
    Sorted Actions.newest_first feed ∧
    (∀ a b, a ∈ feed → b ∈ rest → Actions.created b ≤ Actions.created a) ∧
    length feed = Nat.min 10 (length (feed ++ rest)).
Proof.
  intros Hself. pose proof (dashboard_selection request w) as Hrun.
  set (selected := filter _ (actions w)) in Hrun.
  assert (Hsel : selected = filter (in_feed (user request) (contacts w)) (actions w)).
  { apply list_filter_iff. intros a. unfold in_feed. split.
    - intros [Hother [Hnobody|Hfollowed]].
      + right. split; [|done]. intros b Hb%elem_of_following.
        rewrite Hnobody in Hb. by apply not_elem_of_nil in Hb.
      + left. by apply elem_of_following.
    - intros [Hfollowed|[Hnobody Hother]].
      + split; [|right; by apply elem_of_following].
        intros Heq. apply Hself. by rewrite Heq in Hfollowed.
      + split; [done|]. left.
        destruct (following (user request) (contacts w)) as [|b l] eqn:Hf; [done|].
        destruct (Hnobody b). apply elem_of_following. rewrite Hf. left. }
  destruct (take_ordering_spec 10 selected) as (Hperm & Hsorted & Hnewer & Hlen).
  exists (take 10 (Actions.ordering selected)), (drop 10 (Actions.ordering selected)).
  rewrite <- Hsel. split; [done|]. split; [done|]. split; [done|]. split; [done|].
  by rewrite Hperm.
Qed.

End Feed.

Lemma dashboard_feed_ana :
  let ana := {| Auth.id := 1; Auth.username := "ana" |} in
  let bob := {| Auth.id := 2; Auth.username := "bob" |} in
  let cat := {| Auth.id := 3; Auth.username := "cat" |} in
  let row u t := Actions.new_action t u "likes" None in
  let w := {| users := [ana; bob; cat];
              contacts := [{| AccountModels.user_from := 1; AccountModels.user_to := 2;
                              AccountModels.created := 0 |};
                           {| AccountModels.user_from := 3; AccountModels.user_to := 1;
                              AccountModels.created := 0 |}];
              actions := [row ana 1; row bob 2; row cat 2; row bob 3];
              images := ∅; images_users_like := ∅; redis := Redis.empty |} in
  let request := {| Http.user := ana; Http.POST := ∅ |} in
  ∃ feed rest,
    AccountViews.dashboard request w =
      (inr (Http.Render "account/dashboard.html"
              (Http.DashboardContext "dashboard" feed)), w) ∧
    feed ++ rest ≡ₚ [row bob 2; row bob 3] ∧
    Sorted Actions.newest_first feed ∧
    (∀ a b, a ∈ feed → b ∈ rest → Actions.created b ≤ Actions.created a) ∧
    length feed = Nat.min 10 (length (feed ++ rest)).
Proof.
  intros ana bob cat row w request. apply (dashboard_feed request w).
  intros (c & Hc & Hfrom & Hto). cbv [w contacts] in Hc.
  repeat (apply elem_of_cons in Hc as [->|Hc];
          [by vm_compute in Hfrom, Hto|]).
  by apply not_elem_of_nil in Hc.
Defined.

(** ** View counting *)

Section ViewCounter.
Import Auth ImagesModels Http ImagesViews.

Implicit Types (w : World) (request : Request) (row : Image).

Lemma get_image_or_404_found pk slug w row :
  images w !! pk = Some row → ImagesModels.slug row = slug →
  get_image_or_404 pk slug w = (inr (pk, row), w).
Proof.
  intros Hrow Hslug. unfold get_image_or_404. rewrite run_gets_bind, Hrow.
  by rewrite decide_True.
Qed.

Lemma get_image_or_404_read_only pk slug : read_only (get_image_or_404 pk slug).
Proof.
  intros w. unfold get_image_or_404. rewrite run_gets_bind.
  destruct (images w !! pk); [case_decide|]; done.
Qed.

Lemma run_command {X} (c : Redis.Store → result X * Redis.Store) w :
  command c w = ((c (redis w)).1, with_redis (c (redis w)).2 w).
Proof. unfold command. by destruct (c (redis w)). Qed.

Lemma incr_up name s :
  Redis.unreachable s = None →
  Redis.incr name s =
    (inr (default 0 (Redis.strings s !! name) + 1),
     {| Redis.unreachable := None;
        Redis.strings :=
          <[name := default 0 (Redis.strings s !! name) + 1]> (Redis.strings s);
        Redis.zsets := Redis.zsets s |}).
Proof. unfold Redis.incr. by intros ->. Qed.

Lemma zincrby_up name amount value s :
  Redis.unreachable s = None →
  Redis.zincrby name amount value s =
    (inr (default 0 (Redis.zscore name value s) + amount),
     {| Redis.unreachable := None;
        Redis.strings := Redis.strings s;
        Redis.zsets :=
          <[name := <[value := default 0 (Redis.zscore name value s) + amount]>
                      (Redis.zset name s)]> (Redis.zsets s) |}).
Proof. unfold Redis.zincrby. by intros ->. Qed.

(** One view of an existing image with the store up: the counter and the
    score of the image both go up by one and the new counter value is what
    the page shows. *)
Lemma image_detail_counts request pk slug w row :
  Redis.unreachable (redis w) = None →
  images w !! pk = Some row → ImagesModels.slug row = slug →
  ∃ w',
    image_detail request pk slug w =
      (inr (Render "images/image/detail.html"
              (DetailContext "images" (pk, row) (views (redis w) pk + 1))), w') ∧
    Redis.unreachable (redis w') = None ∧
    images w' = images w ∧
    views (redis w') pk = views (redis w) pk + 1 ∧
    ranking_score (redis w') pk = ranking_score (redis w) pk + 1.
Proof.
  intros Hup Hrow Hslug. unfold image_detail.
  rewrite (run_bind_inr _ _ _ _ _ (get_image_or_404_found _ _ _ _ Hrow Hslug)).
  rewrite run_bind, run_command, (incr_up _ _ Hup). cbn [fst snd].
  rewrite run_bind, run_command, zincrby_up by done. cbn [fst snd].
  rewrite run_ret. eexists. split; [reflexivity|].
  cbn [redis with_redis images Redis.unreachable Redis.strings Redis.zsets].
  split; [done|]. split; [done|]. split.
  - unfold views. cbn [Redis.strings]. rewrite lookup_insert_eq. reflexivity.
  - unfold ranking_score, Redis.zscore, Redis.zset. cbn [Redis.zsets].
    rewrite lookup_insert_eq. cbn [from_option Datatypes.id].
    rewrite lookup_insert_eq.
    reflexivity.
Qed.

End ViewCounter.

(** ** The store being down *)

Section StoreDown.
Import Auth ImagesModels Http ImagesViews.
Context (int : string → option Z).

Implicit Types (w : World) (request : Request).

Lemma incr_down name s reason :
  Redis.unreachable s = Some reason →
  Redis.incr name s = (inl (ConnectionError reason), s).
Proof. unfold Redis.incr. by intros ->. Qed.

Lemma zrange_down name start end_ desc s reason :
  Redis.unreachable s = Some reason →
  Redis.zrange name start end_ desc s = (inl (ConnectionError reason), s).
Proof. unfold Redis.zrange. by intros ->. Qed.

Lemma with_redis_same w : with_redis (redis w) w = w.
Proof. by destruct w. Qed.

(** C7. While the store is unreachable, the ranking page and the detail
    page of an existing image raise the store's [ConnectionError], reason
    included, and write nothing; the detail page never renders (an unknown
    image is a 404), so no view count, zero or other, is ever made up. *)
Theorem store_unreachable_propagates request w reason :
  Redis.unreachable (redis w) = Some reason →
  image_ranking int request w = (inl (ConnectionError reason), w) ∧
  (∀ pk slug row,
     images w !! pk = Some row → ImagesModels.slug row = slug →
     image_detail request pk slug w = (inl (ConnectionError reason), w)) ∧
  (∀ pk slug, ∃ e, image_detail request pk slug w = (inl e, w)).
Proof.
  intros Hdown.
  assert (Hdetail : ∀ pk slug row,
    images w !! pk = Some row → ImagesModels.slug row = slug →
    image_detail request pk slug w = (inl (ConnectionError reason), w)).
  { intros pk slug row Hrow Hslug. unfold image_detail.
    rewrite (run_bind_inr _ _ _ _ _ (get_image_or_404_found _ _ _ _ Hrow Hslug)).
    rewrite run_bind, run_command, (incr_down _ _ _ Hdown). cbn [fst snd].
    by rewrite with_redis_same. }
  split; [|split; [done|]].
  - unfold image_ranking.
    rewrite run_bind, run_command, (zrange_down _ _ _ _ _ _ Hdown). cbn [fst snd].
    by rewrite with_redis_same.
  - intros pk slug. destruct (images w !! pk) as [row|] eqn:Hrow.
    + destruct (decide (ImagesModels.slug row = slug)) as [Hslug|Hslug].
      * exists (ConnectionError reason). by eapply Hdetail.
      * exists Http404. unfold image_detail, get_image_or_404.
        rewrite run_bind, run_gets_bind, Hrow. by rewrite decide_False.
    + exists Http404. unfold image_detail, get_image_or_404.
      by rewrite run_bind, run_gets_bind, Hrow.
Qed.

End StoreDown.

Lemma store_unreachable_propagates_refused :
  let ana := {| Auth.id := 1; Auth.username := "ana" |} in
  let row := {| ImagesModels.user_id := 1; ImagesModels.title := "Sunset";
                ImagesModels.slug := "sunset"; ImagesModels.url := "";
                ImagesModels.image := ""; ImagesModels.description := "";
                ImagesModels.created := 0; ImagesModels.total_likes := 0 |} in
  let down := {| Redis.unreachable := Some "Connection refused";
                 Redis.strings := {[ "image:42:views" := 5 ]};
                 Redis.zsets := {[ "image_ranking" := {[ "42" := 5 ]} ]} |} in
  let w := {| users := [ana]; contacts := []; actions := [];
              images := {[ 42 := row ]}; images_users_like := ∅; redis := down |} in
  let request := {| Http.user := ana; Http.POST := ∅ |} in
  ImagesViews.image_ranking int_decimal request w =
    (inl (ConnectionError "Connection refused"), w) ∧
  (∀ pk slug row,
     images w !! pk = Some row → ImagesModels.slug row = slug →
     ImagesViews.image_detail request pk slug w =
       (inl (ConnectionError "Connection refused"), w)) ∧
  (∀ pk slug, ∃ e, ImagesViews.image_detail request pk slug w = (inl e, w)).
Proof.
  intros ana row down w request.
  apply (store_unreachable_propagates int_decimal request w "Connection refused").
  reflexivity.
Defined.

(** ** Likes *)

Section Likes.
Import Auth ContentTypes ImagesModels Http ImagesViews.
Context (slugify : string → string) (int : string → option Z).

Implicit Types (w : World) (request : Request) (row : Image) (user : User).

Lemma truthy_true value :
  truthy value = true ↔ ∃ s, value = Some s ∧ s ≠ "".
Proof.
  destruct value as [s|]; simpl.
  - rewrite bool_decide_eq_true. split; [by exists s | by intros (? & [= <-] & ?)].
  - split; [done | by intros (? & ? & _)].
Qed.

Lemma save_run pk row w :
  ∃ row',
    save slugify (pk, row) w = (inr (pk, row'), with_images (<[pk := row']>) w) ∧
    total_likes row' = total_likes row.
Proof.
  unfold save. cbn [fst snd]. case_decide.
  - eexists. rewrite run_modify_bind, run_ret. split; reflexivity.
  - eexists. rewrite run_modify_bind, run_ret. split; reflexivity.
Qed.

Lemma users_like_changed_run pk row w :
  ∃ row',
    users_like_changed slugify (pk, row) w =
      (inr (pk, row'), with_images (<[pk := row']>) w) ∧
    total_likes row' = Z.of_nat (size (users_like pk w)).
Proof.
  unfold users_like_changed, users_like_count. rewrite run_gets_bind. cbn [fst snd].
  destruct (save_run pk (with_total_likes (Z.of_nat (size (users_like pk w))) row) w)
    as (row' & -> & Hlikes).
  by exists row'.
Qed.

(** Adding or removing a like: the join table changes by the one pair and
    the image is saved with the number of pairs it now has. *)
Lemma users_like_add_run pk row user w :
  ∃ row',
    users_like_add slugify (pk, row) user w =
      (inr (pk, row'),
       {| users := users w; contacts := contacts w; actions := actions w;
          images := <[pk := row']> (images w);
          images_users_like := images_users_like w ∪ {[ (pk, id user) ]};
          redis := redis w |}) ∧
    total_likes row' =
      Z.of_nat (size (filter (λ r, r.1 = pk) (images_users_like w ∪ {[ (pk, id user) ]}))).
Proof.
  unfold users_like_add.
  destruct (users_like_changed_run pk row w) as (row1 & Hrun1 & _).
  rewrite (run_bind_inr _ _ _ _ _ Hrun1), run_modify_bind. cbn [fst snd].
  set (w1 := with_images_users_like _ _).
  destruct (users_like_changed_run pk row1 w1) as (row2 & -> & Hlikes).
  exists row2. split; [|done].
  unfold with_images, w1, with_images_users_like, with_images. simpl.
  by rewrite insert_insert_eq.
Qed.

Lemma users_like_remove_run pk row user w :
  ∃ row',
    users_like_remove slugify (pk, row) user w =
      (inr (pk, row'),
       {| users := users w; contacts := contacts w; actions := actions w;
          images := <[pk := row']> (images w);
          images_users_like := images_users_like w ∖ {[ (pk, id user) ]};
          redis := redis w |}) ∧
    total_likes row' =
      Z.of_nat (size (filter (λ r, r.1 = pk) (images_users_like w ∖ {[ (pk, id user) ]}))).
Proof.
  unfold users_like_remove.
  destruct (users_like_changed_run pk row w) as (row1 & Hrun1 & _).
  rewrite (run_bind_inr _ _ _ _ _ Hrun1), run_modify_bind. cbn [fst snd].
  set (w1 := with_images_users_like _ _).
  destruct (users_like_changed_run pk row1 w1) as (row2 & -> & Hlikes).
  exists row2. split; [|done].
  unfold with_images, w1, with_images_users_like, with_images. simpl.
  by rewrite insert_insert_eq.
Qed.

Lemma get_image_run s w :
  get_image int s w =
    match int s with
    | Some pk =>
        match images w !! pk with
        | Some row => (inr (pk, row), w)
        | None => (inl (DoesNotExist CtImage), w)
        end
    | None => (inl ValueError, w)
    end.
Proof.
  unfold get_image. rewrite run_bind. destruct (int s) as [pk|]; [|done].
  cbn [or_raise]. rewrite run_ret, run_gets_bind. by destruct (images w !! pk).
Qed.


Lemma image_like_refused now saved request w :
  truthy (POST request !! "id") = false ∨ truthy (POST request !! "action") = false →
  image_like slugify int now saved request w = (inr (JsonResponse "error"), w).
Proof.
  unfold image_like. intros [-> | ->]; [done|]. by rewrite andb_false_r.
Qed.

Lemma image_like_unknown now saved request w s pk :
  POST request !! "id" = Some s → s ≠ "" →
  truthy (POST request !! "action") = true →
  int s = Some pk → images w !! pk = None →
  image_like slugify int now saved request w = (inr (JsonResponse "error"), w).
Proof.
  intros Hid Hs Haction Hint Hrow. unfold image_like.
  assert (truthy (POST request !! "id") = true) as -> by (apply truthy_true; eauto).
  rewrite Haction, Hid. cbn [andb default from_option Datatypes.id].
  unfold try_except.
  by rewrite run_bind, get_image_run, Hint, Hrow.
Qed.

Lemma image_like_malformed now saved request w s :
  POST request !! "id" = Some s → s ≠ "" →
  truthy (POST request !! "action") = true →
  int s = None →
  image_like slugify int now saved request w = (inl ValueError, w).
Proof.
  intros Hid Hs Haction Hint. unfold image_like.
  assert (truthy (POST request !! "id") = true) as -> by (apply truthy_true; eauto).
  rewrite Haction, Hid. cbn [andb default from_option Datatypes.id].
  unfold try_except.
  by rewrite run_bind, get_image_run, Hint.
Qed.

(** A request naming an existing image with a non-empty action is
    answered [ok]: the pair (image, requester) is put into the join table
    if the action is ['like'] and taken out of it otherwise, and the image
    is saved with the number of pairs it then has. *)
Lemma image_like_ok now saved request w s a pk row :
  POST request !! "id" = Some s → s ≠ "" →
  POST request !! "action" = Some a → a ≠ "" →
  int s = Some pk → images w !! pk = Some row →
  ∃ row',
    image_like slugify int now saved request w =
      (inr (JsonResponse "ok"),
       {| users := users w; contacts := contacts w;
          actions :=
            if decide (a = "like")
            then (Actions.create_action now saved (user request) "likes"
                    (Some {| model := CtImage; ContentTypes.pk := pk |}) (actions w)).2
            else actions w;
          images := <[pk := row']> (images w);
          images_users_like :=
            if decide (a = "like")
            then images_users_like w ∪ {[ (pk, id (user request)) ]}
            else images_users_like w ∖ {[ (pk, id (user request)) ]};
          redis := redis w |}) ∧
    total_likes row' =
      Z.of_nat (size (filter (λ r, r.1 = pk)
        (if decide (a = "like")
         then images_users_like w ∪ {[ (pk, id (user request)) ]}
         else images_users_like w ∖ {[ (pk, id (user request)) ]}))).
Proof.
  intros Hid Hs Haction Ha Hint Hrow. unfold image_like.
  assert (truthy (POST request !! "id") = true) as -> by (apply truthy_true; eauto).
  assert (truthy (POST request !! "action") = true) as -> by (apply truthy_true; eauto).
  rewrite Haction, Hid. cbn [andb default from_option Datatypes.id].
  unfold try_except.
  rewrite run_bind, get_image_run, Hint, Hrow.
  destruct (decide (a = "like")) as [->|Hne].
  - rewrite decide_True by done.
    destruct (users_like_add_run pk row (user request) w) as (row' & Hrun & Hlikes).
    exists row'. split; [|done].
    rewrite run_bind, run_bind, Hrun, run_bind.
    unfold create_action. cbn [actions fst snd].
    by destruct (Actions.create_action _ _ _ _ _ _).
  - rewrite decide_False by congruence.
    destruct (users_like_remove_run pk row (user request) w) as (row' & Hrun & Hlikes).
    exists row'. split; [|done].
    by rewrite run_bind, run_bind, Hrun.
Qed.


Lemma users_like_other pk pk' uid w w' :
  pk ≠ pk' →
  images_users_like w' = images_users_like w ∪ {[ (pk, uid) ]} ∨
  images_users_like w' = images_users_like w ∖ {[ (pk, uid) ]} →
  users_like pk' w' = users_like pk' w.
Proof.
  intros Hne Hrows. unfold users_like. apply set_eq. intros [i u].
  rewrite !elem_of_filter. destruct Hrows as [-> | ->].
  - rewrite elem_of_union, elem_of_singleton. simpl. split; [|tauto].
    intros [-> [? | [= ? ?]]]; [done | congruence].
  - rewrite elem_of_difference, elem_of_singleton. simpl. split; [tauto|].
    intros [-> ?]. split; [done|]. split; [done|]. intros [= ? ?]. congruence.
Qed.

Lemma users_like_same_add pk uid w w' :
  images_users_like w' = images_users_like w ∪ {[ (pk, uid) ]} →
  users_like pk w' = users_like pk w ∪ {[ (pk, uid) ]}.
Proof.
  intros Hrows. unfold users_like. rewrite Hrows. apply set_eq. intros [i u].
  rewrite elem_of_union, !elem_of_filter, elem_of_union, elem_of_singleton. simpl.
  split; [tauto|]. intros [? | [= -> ->]]; [tauto|]. split; [done | by right].
Qed.

Lemma users_like_same_remove pk uid w w' :
  images_users_like w' = images_users_like w ∖ {[ (pk, uid) ]} →
  users_like pk w' = users_like pk w ∖ {[ (pk, uid) ]}.
Proof.
  intros Hrows. unfold users_like. rewrite Hrows. apply set_eq. intros [i u].
  rewrite elem_of_difference, !elem_of_filter, elem_of_difference. tauto.
Qed.

(** C8. Every like or unlike that goes through (a request with non-empty
    parameters naming an existing image) puts the requester into, or takes
    them out of, the image's set of liking users and leaves the image's
    stored [total_likes] equal to the size of that set; and a world in
    which every image's [total_likes] is the size of its set stays so
    under any request to [image_like]. *)
Theorem image_like_total_likes now saved request w :
  let w' := (image_like slugify int now saved request w).2 in
  (∀ s a pk row,
     POST request !! "id" = Some s → s ≠ "" →
     POST request !! "action" = Some a → a ≠ "" →
     int s = Some pk → images w !! pk = Some row →
     users_like pk w' =
       (if decide (a = "like")
        then users_like pk w ∪ {[ (pk, id (user request)) ]}
        else users_like pk w ∖ {[ (pk, id (user request)) ]}) ∧
     ∃ row', images w' !! pk = Some row' ∧
       total_likes row' = Z.of_nat (size (users_like pk w'))) ∧
  (likes_consistent w → likes_consistent w').
Proof.
  intros w'.
  assert (Hok : ∀ s a pk row,
     POST request !! "id" = Some s → s ≠ "" →
     POST request !! "action" = Some a → a ≠ "" →
     int s = Some pk → images w !! pk = Some row →
     (images_users_like w' =
        if decide (a = "like")
        then images_users_like w ∪ {[ (pk, id (user request)) ]}
        else images_users_like w ∖ {[ (pk, id (user request)) ]}) ∧
     (∀ pk', pk ≠ pk' → images w' !! pk' = images w !! pk') ∧
     ∃ row', images w' !! pk = Some row' ∧
       total_likes row' = Z.of_nat (size (users_like pk w'))).
  { intros s a pk row Hid Hs Haction Ha Hint Hrow.
    destruct (image_like_ok now saved request w s a pk row Hid Hs Haction Ha Hint Hrow)
      as (row' & Hrun & Hlikes).
    unfold w'. rewrite Hrun. cbn [snd images images_users_like].
    split; [done|]. split.
    - intros pk' Hne. by rewrite lookup_insert_ne.
    - exists row'. by rewrite lookup_insert_eq. }
  split.
  - intros s a pk row Hid Hs Haction Ha Hint Hrow.
    destruct (Hok s a pk row Hid Hs Haction Ha Hint Hrow) as (Hrows & _ & Hrow').
    split; [|done]. case_decide.
    + by apply users_like_same_add.
    + by apply users_like_same_remove.
  - intros Hinv.
    destruct (truthy (POST request !! "id")) eqn:Hid;
      [|unfold w'; rewrite image_like_refused by auto; done].
    destruct (truthy (POST request !! "action")) eqn:Haction;
      [|unfold w'; rewrite image_like_refused by auto; done].
    apply truthy_true in Hid as (s & Hid & Hs).
    pose proof Haction as (a & Ha & Hane)%truthy_true.
    destruct (int s) as [pk|] eqn:Hint;
      [|unfold w'; by erewrite image_like_malformed].
    destruct (images w !! pk) as [row|] eqn:Hrow;
      [|unfold w'; by erewrite image_like_unknown].
    destruct (Hok s a pk row Hid Hs Ha Hane Hint Hrow)
      as (Hrows & Hother & row' & Hrow' & Hlikes).
    intros pk' r Hr. destruct (decide (pk = pk')) as [<-|Hne].
    + rewrite Hrow' in Hr. by injection Hr as <-.
    + rewrite Hother in Hr by done. rewrite (Hinv pk' r Hr). do 2 f_equal.
      symmetry. apply (users_like_other pk pk' (id (user request))); [done|].
      destruct (decide (a = "like")); auto.
Qed.

(** C10, as the code has it. A request naming an existing image with a
    non-empty action other than ['like'] is an unlike: the requester is
    taken out of the image's likes, no action is recorded and the answer
    is [ok].  A request whose image id or action is missing or empty, or
    whose id is an integer that no image has, is answered [error] and
    changes nothing. *)
Theorem image_like_cases now saved request w :
  (∀ s a pk row,
     POST request !! "id" = Some s → s ≠ "" →
     POST request !! "action" = Some a → a ≠ "" → a ≠ "like" →
     int s = Some pk → images w !! pk = Some row →
     ∃ w',
       image_like slugify int now saved request w = (inr (JsonResponse "ok"), w') ∧
       images_users_like w' = images_users_like w ∖ {[ (pk, id (user request)) ]} ∧
       ((pk, id (user request)) ∉ images_users_like w') ∧
       actions w' = actions w) ∧
  (truthy (POST request !! "id") = false ∨
   truthy (POST request !! "action") = false →
   image_like slugify int now saved request w = (inr (JsonResponse "error"), w)) ∧
  (∀ s pk,
     POST request !! "id" = Some s → s ≠ "" →
     truthy (POST request !! "action") = true →
     int s = Some pk → images w !! pk = None →
     image_like slugify int now saved request w = (inr (JsonResponse "error"), w)).
Proof.
  split; [|split].
  - intros s a pk row Hid Hs Haction Ha Hlike Hint Hrow.
    destruct (image_like_ok now saved request w s a pk row Hid Hs Haction Ha Hint Hrow)
      as (row' & Hrun & _).
    destruct (decide (a = "like")); [done|].
    eexists. split; [exact Hrun|]. cbn [images_users_like actions].
    split; [done|]. split; [|done].
    rewrite elem_of_difference, elem_of_singleton. tauto.
  - apply image_like_refused.
  - apply image_like_unknown.
Qed.

End Likes.

Lemma image_like_total_likes_ana :
  let ana := {| Auth.id := 1; Auth.username := "ana" |} in
  let row := {| ImagesModels.user_id := 2; ImagesModels.title := "Sunset";
                ImagesModels.slug := "sunset"; ImagesModels.url := "";
                ImagesModels.image := ""; ImagesModels.description := "";
                ImagesModels.created := 0; ImagesModels.total_likes := 0 |} in
  let w := {| users := [ana]; contacts := []; actions := [];
              images := {[ 7 := row ]}; images_users_like := ∅;
              redis := Redis.empty |} in
  let request := {| Http.user := ana;
                    Http.POST := {[ "id" := "7"; "action" := "like" ]} |} in
  let w' := (ImagesViews.image_like (λ s, s) int_decimal 0 0 request w).2 in
  (ImagesViews.users_like 7 w' = ImagesViews.users_like 7 w ∪ {[ (7, 1) ]} ∧
   ∃ row', images w' !! 7 = Some row' ∧
     ImagesModels.total_likes row' = Z.of_nat (size (ImagesViews.users_like 7 w'))) ∧
  likes_consistent w'.
Proof.
  intros ana row w request w'.
  pose proof (image_like_total_likes (λ s, s) int_decimal 0 0 request w) as [Hok Hinv].
  split.
  - apply (Hok "7" "like" 7 row); reflexivity || discriminate.
  - apply Hinv. intros pk r Hr. unfold w in Hr. cbn [images] in Hr.
    apply lookup_singleton_Some in Hr as [<- <-]. reflexivity.
Defined.

Lemma image_like_cases_ana :
  let ana := {| Auth.id := 1; Auth.username := "ana" |} in
  let row := {| ImagesModels.user_id := 2; ImagesModels.title := "Sunset";
                ImagesModels.slug := "sunset"; ImagesModels.url := "";
                ImagesModels.image := ""; ImagesModels.description := "";
                ImagesModels.created := 0; ImagesModels.total_likes := 1 |} in
  let w := {| users := [ana]; contacts := []; actions := [];
              images := {[ 7 := row ]}; images_users_like := {[ (7, 1) ]};
              redis := Redis.empty |} in
  let unlike := {| Http.user := ana;
                   Http.POST := {[ "id" := "7"; "action" := "unlike" ]} |} in
  let no_action := {| Http.user := ana; Http.POST := {[ "id" := "7" ]} |} in
  let unknown := {| Http.user := ana;
                    Http.POST := {[ "id" := "8"; "action" := "unlike" ]} |} in
  (∃ w',
     ImagesViews.image_like (λ s, s) int_decimal 0 0 unlike w =
       (inr (Http.JsonResponse "ok"), w') ∧
     images_users_like w' = images_users_like w ∖ {[ (7, 1) ]} ∧
     ((7, 1) ∉ images_users_like w') ∧
     actions w' = actions w) ∧
  ImagesViews.image_like (λ s, s) int_decimal 0 0 no_action w =
    (inr (Http.JsonResponse "error"), w) ∧
  ImagesViews.image_like (λ s, s) int_decimal 0 0 unknown w =
    (inr (Http.JsonResponse "error"), w).
Proof.
  intros ana row w unlike no_action unknown. split; [|split].
  - apply (proj1 (image_like_cases (λ s, s) int_decimal 0 0 unlike w) "7" "unlike" 7 row);
      reflexivity || discriminate.
  - apply (proj1 (proj2 (image_like_cases (λ s, s) int_decimal 0 0 no_action w))).
    right. reflexivity.
  - apply (proj2 (proj2 (image_like_cases (λ s, s) int_decimal 0 0 unknown w)) "8" 8);
      reflexivity || discriminate.
Defined.

(** C10 as stated fails for the empty action: it is a value other than
    ['like'], yet the request is answered [error] and the requester's like
    stays. *)
Lemma image_like_empty_action_refused :
  let ana := {| Auth.id := 1; Auth.username := "ana" |} in
  let row := {| ImagesModels.user_id := 2; ImagesModels.title := "Sunset";
                ImagesModels.slug := "sunset"; ImagesModels.url := "";
                ImagesModels.image := ""; ImagesModels.description := "";
                ImagesModels.created := 0; ImagesModels.total_likes := 1 |} in
  let w := {| users := [ana]; contacts := []; actions := [];
              images := {[ 7 := row ]}; images_users_like := {[ (7, 1) ]};
              redis := Redis.empty |} in
  let request := {| Http.user := ana;
                    Http.POST := {[ "id" := "7"; "action" := "" ]} |} in
  Http.POST request !! "action" = Some "" ∧ "" ≠ "like" ∧
  ImagesViews.image_like (λ s, s) int_decimal 0 0 request w =
    (inr (Http.JsonResponse "error"), w) ∧
  (7, 1) ∈ images_users_like w.
Proof.
  intros ana row w request.
  split; [reflexivity|]. split; [discriminate|]. split; [reflexivity|].
  unfold w. cbn [images_users_like]. apply elem_of_singleton. reflexivity.
Qed.

(** ** Sorting *)

Section Sorting.
Context {X : Type}.

Lemma StronglySorted_sublist (R : relation X) (l1 l2 : list X) :
  l1 `sublist_of` l2 → StronglySorted R l2 → StronglySorted R l1.
Proof.
  induction 1 as [|x l1 l2 Hsub IH|x l1 l2 Hsub IH]; intros Hs.
  - constructor.
  - apply StronglySorted_inv in Hs as [Hs Hx]. constructor; [by apply IH|].
    eapply Forall_impl with (P := R x); [|done].
    rewrite Forall_forall in Hx |- *. intros y Hy. apply Hx.
    by eapply sublist_subseteq.
  - apply StronglySorted_inv in Hs as [Hs _]. by apply IH.
Qed.

Lemma insort_Permutation (x : nat * X) l : insort x l ≡ₚ x :: l.
Proof.
  induction l as [|y l IH]; [done|]. simpl. case_decide; [done|].
  by rewrite IH, Permutation_swap.
Qed.

Lemma insort_HdRel (a x : nat * X) l :
  key_le a x → HdRel key_le a l → HdRel key_le a (insort x l).
Proof.
  intros Hax Hl. destruct l as [|y l]; simpl; [by constructor|].
  case_decide; constructor; [done|]. by inversion Hl.
Qed.

Lemma insort_Sorted (x : nat * X) l :
  Sorted key_le l → Sorted key_le (insort x l).
Proof.
  induction 1 as [|y l Hl IH Hy]; simpl; [by repeat constructor|].
  case_decide as Hxy.
  - constructor; [by constructor|]. by constructor.
  - constructor; [done|]. apply insort_HdRel; [|done].
    unfold key_le. lia.
Qed.

Lemma foldr_insort_Permutation (l : list (nat * X)) : foldr insort [] l ≡ₚ l.
Proof.
  induction l as [|x l IH]; [done|]. simpl. by rewrite insort_Permutation, IH.
Qed.

Lemma foldr_insort_Sorted (l : list (nat * X)) : Sorted key_le (foldr insort [] l).
Proof. induction l; simpl; [constructor | by apply insort_Sorted]. Qed.

(** What [list.sort(key=...)] returns when no key raises: the same
    elements, each with its key, in ascending order of the keys. *)
Lemma list_sort_spec (key : X → option nat) (l : list X)  :
  Forall (λ x, is_Some (key x)) l →
  ∃ sorted : list (nat * X),
    list_sort key l = Some (sorted.*2) ∧
    sorted.*2 ≡ₚ l ∧
    Sorted key_le sorted ∧
    Forall (λ p, key p.2 = Some p.1) sorted.
Proof.
  intros Hkeys.
  assert (∃ keys, mapM key l = Some keys ∧ Forall2 (λ x k, key x = Some k) l keys)
    as (keys & Hmap & Hall).
  { induction Hkeys as [|x l [k Hk] _ (keys & Hmap & Hall)].
    - by exists [].
    - exists (k :: keys). split; [|by constructor].
      rewrite mapM_Some. constructor; [done|]. by apply mapM_Some. }
  exists (foldr insort [] (zip keys l)). unfold list_sort. rewrite Hmap. simpl.
  split; [done|]. split; [|split].
  - rewrite foldr_insort_Permutation. rewrite snd_zip; [done|].
    apply Forall2_length in Hall. lia.
  - apply foldr_insort_Sorted.
  - rewrite foldr_insort_Permutation.
    clear Hmap Hkeys. induction Hall; simpl; constructor; done.
Qed.

End Sorting.

(** ** The ranking *)

Section RankOrder.
Implicit Types (ids : list Z).

Lemma rank_range_all {X} (l : list X) : Redis.rank_range 0 (-1) l = l.
Proof.
  unfold Redis.rank_range. cbv zeta.
  repeat case_decide; try lia.
  - destruct l; [done | simpl in *; lia].
  - rewrite drop_0. apply firstn_all2. lia.
Qed.

Lemma index_lookup x ids n : index x ids = Some n → ids !! n = Some x.
Proof.
  revert n. induction ids as [|y ids IH]; intros n; simpl; [done|].
  case_decide as Hy; [by intros [= <-]; subst|].
  destruct (index x ids) as [m|]; simpl; [|done].
  intros [= <-]. by apply IH.
Qed.

Lemma index_is_Some x ids : x ∈ ids → is_Some (index x ids).
Proof.
  induction 1 as [x ids|x y ids Hx IH]; simpl.
  - by rewrite decide_True.
  - case_decide; [done|]. destruct IH as [m ->]. done.
Qed.

Lemma rank_le_trans ids : NoDup ids → Transitive (rank_le ids).
Proof.
  intros Hnd a b c (n & m & Hn & Hm & Hnm) (m' & k & Hm' & Hk & Hmk).
  assert (m = m') as <- by by eapply NoDup_lookup.
  exists n, k. split; [done|]. split; [done|]. lia.
Qed.

Lemma rank_le_antisymm ids : NoDup ids → AntiSymm (=) (rank_le ids).
Proof.
  intros Hnd a b (n & m & Hn & Hm & Hnm) (m' & n' & Hm' & Hn' & Hmn).
  assert (m = m') as <- by by eapply NoDup_lookup.
  assert (n = n') as <- by by eapply NoDup_lookup.
  assert (n = m) as <- by lia. congruence.
Qed.

Lemma rank_le_StronglySorted ids : StronglySorted (rank_le ids) ids.
Proof.
  assert (∀ l pre, ids = pre ++ l → StronglySorted (rank_le ids) l) as H;
    [|by apply (H ids [])].
  induction l as [|x l IH]; intros pre Hids; [constructor|].
  constructor.
  - apply (IH (pre ++ [x])). by rewrite <- app_assoc.
  - apply Forall_forall. intros y [j Hj]%list_elem_of_lookup.
    exists (length pre), (length pre + S j)%nat. subst ids.
    split; [by rewrite list_lookup_middle|].
    split; [|lia]. rewrite lookup_app_r by lia.
    by replace (length pre + S j - length pre)%nat with (S j) by lia.
Qed.

End RankOrder.

Lemma int_decimal_str z : int_decimal (str z) = Some z.
Proof.
  unfold int_decimal, str. rewrite NilZero.isi.
  - simpl. by rewrite DecimalZ.of_to.
  - destruct z; simpl; [done| |done]. intros [= H]. by apply DecimalPos.Unsigned.to_uint_nonnil in H.
  - destruct z; simpl; [done|done|]. intros [= H]. by apply DecimalPos.Unsigned.to_uint_nonnil in H.
Qed.

Section Ranking.
Import Auth ContentTypes ImagesModels Http ImagesViews.
Context (int : string → option Z).
Hypothesis int_str : ∀ z, int (str z) = Some z.

Implicit Types (w : World) (request : Request) (s : Redis.Store) (ids : list Z).

Lemma score_ge_total : Total Redis.score_ge.
Proof. intros a b. unfold Redis.score_ge. lia. Qed.

Lemma score_ge_trans : Transitive Redis.score_ge.
Proof. intros a b c. unfold Redis.score_ge. lia. Qed.

#[local] Existing Instances score_ge_total score_ge_trans.

Lemma mapM_int_str ids : mapM int (str <$> ids) = Some ids.
Proof.
  apply mapM_Some. induction ids; constructor; [apply int_str | done].
Qed.

Lemma zrange_up name desc s :
  Redis.unreachable s = None →
  Redis.zrange name 0 (-1) desc s = (inr (Redis.ranked desc (Redis.zset name s)).*1, s).
Proof. unfold Redis.zrange. intros ->. by rewrite rank_range_all. Qed.

(** The store's descending rank order, read as image ids: every id once,
    scores never increasing. *)
Lemma ranking_decoded s :
  ranking_wf s →
  ∃ ranking,
    str <$> ranking = (Redis.ranked true (Redis.zset "image_ranking" s)).*1 ∧
    NoDup ranking ∧
    StronglySorted (score_desc s) ranking.
Proof.
  intros Hwf. set (z := Redis.zset "image_ranking" s) in *.
  assert (Hperm : Redis.ranked true z ≡ₚ map_to_list z)
    by apply merge_sort_Permutation.
  assert (Hsorted : StronglySorted Redis.score_ge (Redis.ranked true z))
    by (apply StronglySorted_merge_sort; apply _).
  assert (Hnodup : NoDup (Redis.ranked true z).*1).
  { rewrite Hperm. apply NoDup_fst_map_to_list. }
  assert (Hscore : ∀ m sc, (m, sc) ∈ Redis.ranked true z → z !! m = Some sc).
  { intros m sc. rewrite Hperm. apply elem_of_map_to_list. }
  assert (Hstr : ∀ m sc, (m, sc) ∈ Redis.ranked true z → ∃ pk, m = str pk).
  { intros m sc Hm. apply Hwf, elem_of_dom. eauto. }
  clear Hperm. induction (Redis.ranked true z) as [|[m sc] l IH].
  { exists []. repeat split; constructor. }
  apply StronglySorted_inv in Hsorted as [Hsorted Hhd].
  rewrite fmap_cons in Hnodup. apply NoDup_cons in Hnodup as [Hm Hnodup].
  destruct IH as (ranking & Heq & Hnd & Hdesc); [done..| | |].
  { intros ???. apply Hscore. by right. }
  { intros ???. eapply Hstr. by right. }
  destruct (Hstr m sc) as [pk ->]; [by left|].
  exists (pk :: ranking). split; [by rewrite fmap_cons, Heq|]. split.
  - constructor; [|done]. intros Hin. apply Hm. simpl. rewrite <- Heq.
    by apply list_elem_of_fmap_2.
  - constructor; [done|]. apply Forall_forall. intros pk' Hpk'.
    assert (str pk' ∈ l.*1) as ([m' sc'] & Hm' & Hin)%list_elem_of_fmap
      by (rewrite <- Heq; by apply list_elem_of_fmap_2).
    simpl in Hm'. unfold score_desc, ranking_score, Redis.zscore. fold z.
    rewrite (Hscore (str pk) sc) by left.
    rewrite Hm', (Hscore m' sc') by by right. simpl.
    rewrite Forall_forall in Hhd. apply (Hhd _ Hin).
Qed.

(** Keyed elements in key order are in rank order when each key is the
    position of the element's id. *)
Lemma key_le_rank_le {X} ids (sorted : list (nat * (Z * X))) :
  Sorted key_le sorted →
  Forall (λ p, index p.2.1 ids = Some p.1) sorted →
  Sorted (rank_le ids) sorted.*2.*1.
Proof.
  induction 1 as [|p l Hl IH Hhd]; intros Hkeys; [constructor|].
  apply Forall_cons in Hkeys as [Hp Hkeys]. simpl.
  constructor; [by apply IH|].
  destruct Hhd as [|q l Hpq]; simpl; constructor.
  apply Forall_cons in Hkeys as [Hq _].
  exists p.1, q.1. eauto using index_lookup.
Qed.

(** The ranking holds image ids from the start and [image_detail], its
    only writer, keeps it so. *)
Lemma ranking_wf_empty : ranking_wf Redis.empty.
Proof. intros member Hin. by apply not_elem_of_empty in Hin. Qed.

Lemma image_detail_ranking_wf request pk slug w :
  ranking_wf (redis w) → ranking_wf (redis (image_detail request pk slug w).2).
Proof.
  intros Hwf. unfold image_detail. rewrite run_bind.
  pose proof (get_image_or_404_read_only pk slug w) as Hro.
  destruct (get_image_or_404 pk slug w) as [[e|image] w'] eqn:Hget;
    simpl in Hro; subst w'; [done|].
  assert (image.1 = pk) as Hpk.
  { unfold get_image_or_404 in Hget. rewrite run_gets_bind in Hget.
    destruct (images w !! pk); [case_decide|]; by inversion Hget. }
  destruct (Redis.unreachable (redis w)) as [reason|] eqn:Hup.
  { rewrite run_bind, run_command, (incr_down _ _ _ Hup). cbn [fst snd].
    by rewrite with_redis_same. }
  rewrite run_bind, run_command, (incr_up _ _ Hup). cbn [fst snd].
  rewrite run_bind, run_command, zincrby_up by done. cbn [fst snd].
  rewrite run_ret. cbn [snd redis with_redis].
  intros member. unfold Redis.zset at 1. cbn [Redis.zsets].
  rewrite lookup_insert_eq. cbn [from_option Datatypes.id].
  rewrite dom_insert, elem_of_union, elem_of_singleton.
  intros [-> | Hin]; [by exists image.1 | by apply Hwf].
Qed.

(** What [Image.objects.filter(id__in=ids)] fetches: the rows whose key is
    in [ids], each once, in the table's own order. *)
Lemma filter_id_in_spec ids w :
  ∃ fetched,
    filter_id_in ids w = (inr fetched, w) ∧
    NoDup fetched.*1 ∧
    ∀ pk row, (pk, row) ∈ fetched ↔ images w !! pk = Some row ∧ pk ∈ ids.
Proof.
  eexists. split; [reflexivity|].
  assert (Hperm : ordering (filter (λ x, x.1 ∈ ids) (map_to_list (images w)))
                  ≡ₚ filter (λ x, x.1 ∈ ids) (map_to_list (images w)))
    by apply merge_sort_Permutation.
  split.
  - rewrite Hperm.
    apply (sublist_NoDup _ (map_to_list (images w)).*1);
      [apply NoDup_fst_map_to_list | apply fmap_sublist, sublist_filter].
  - intros pk row. rewrite Hperm, list_elem_of_filter, elem_of_map_to_list.
    simpl. tauto.
Qed.

(** C5. With the store up and a ranking made of image ids, the ranking
    page takes the ten highest-ranked ids and shows the records of those
    that still have one, in the store's rank order (descending score)
    whatever order the table returned them in: ids without a record are
    left out, so there may be fewer than ten. *)
Theorem image_ranking_top request w :
  Redis.unreachable (redis w) = None →
  ranking_wf (redis w) →
  ∃ ranking most_viewed,
    str <$> ranking =
      (Redis.ranked true (Redis.zset "image_ranking" (redis w))).*1 ∧
    StronglySorted (score_desc (redis w)) ranking ∧
    image_ranking int request w =
      (inr (Render "images/image/ranking.html"
              (RankingContext "images" most_viewed)), w) ∧
    most_viewed.*1 = filter (λ pk, is_Some (images w !! pk)) (take 10 ranking) ∧
    StronglySorted (score_desc (redis w)) most_viewed.*1 ∧
    (∀ pk row, (pk, row) ∈ most_viewed → images w !! pk = Some row) ∧
    (length most_viewed ≤ 10)%nat.
Proof.
  intros Hup Hwf.
  destruct (ranking_decoded (redis w) Hwf) as (ranking & Hstr & Hnodup & Hdesc).
  set (ids := take 10 ranking).
  assert (Hids : NoDup ids)
    by (apply (sublist_NoDup _ ranking); [done | apply sublist_take]).
  destruct (filter_id_in_spec ids w) as (fetched & Hfetch & Hfnd & Hfetched).
  destruct (list_sort_spec (X := (Z * Image)%type) (λ x, index x.1 ids) fetched)
    as (sorted & Hsort & Hperm & Hsorted & Hkeys).
  { apply Forall_forall. intros [pk row] Hin. apply index_is_Some.
    by apply Hfetched in Hin as [_ ?]. }
  set (selected := filter (λ pk, is_Some (images w !! pk)) ids).
  assert (Hsel : sorted.*2.*1 = selected).
  { pose proof (rank_le_trans ids Hids). pose proof (rank_le_antisymm ids Hids).
    apply (StronglySorted_unique (rank_le ids)).
    - apply Sorted_StronglySorted; [done|]. by apply key_le_rank_le.
    - eapply StronglySorted_sublist; [apply sublist_filter|].
      apply rank_le_StronglySorted.
    - apply NoDup_Permutation.
      + by rewrite Hperm.
      + by apply NoDup_filter.
      + intros pk. unfold selected. rewrite Hperm, list_elem_of_filter. split.
        * intros ([pk' row] & -> & Hin)%list_elem_of_fmap.
          apply Hfetched in Hin as [Hrow ?]. simpl. by rewrite Hrow.
        * intros [[row Hrow] Hin]. apply list_elem_of_fmap.
          exists (pk, row). split; [done|]. by apply Hfetched. }
  exists ranking, sorted.*2.
  split; [done|]. split; [done|]. split; [|split; [done|split; [|split]]].
  - unfold image_ranking.
    rewrite run_bind, run_command, (zrange_up _ _ _ Hup). cbn [fst snd].
    rewrite with_redis_same, <- Hstr, <- fmap_take, mapM_int_str.
    cbn [or_raise]. rewrite run_ret_bind. unfold ids in Hfetch, Hsort.
    rewrite (run_bind_inr _ _ _ _ _ Hfetch), Hsort.
    cbn [or_raise]. by rewrite run_ret_bind.
  - rewrite Hsel. apply (StronglySorted_sublist _ _ ranking); [|done].
    etrans; [apply sublist_filter | apply sublist_take].
  - intros pk row Hin. rewrite Hperm in Hin. by apply Hfetched in Hin as [? _].
  - unfold ImageInstance.
    assert (length sorted.*2 = length selected) as ->
      by (rewrite <- Hsel; by rewrite !length_fmap).
    unfold selected, ids.
    etrans; [apply length_filter|]. rewrite length_take. lia.
Qed.

End Ranking.

Lemma image_ranking_top_deleted :
  let ana := {| Auth.id := 1; Auth.username := "ana" |} in
  let row t := {| ImagesModels.user_id := 1; ImagesModels.title := "Sunset";
                  ImagesModels.slug := "sunset"; ImagesModels.url := "";
                  ImagesModels.image := ""; ImagesModels.description := "";
                  ImagesModels.created := t; ImagesModels.total_likes := 0 |} in
  let store := {| Redis.unreachable := None;
                  Redis.strings := ∅;
                  Redis.zsets :=
                    {[ "image_ranking" := {[ "3" := 1; "7" := 2; "12" := 5 ]} ]} |} in
  let w := {| users := [ana]; contacts := []; actions := [];
              images := {[ 3 := row 9; 7 := row 4 ]}; images_users_like := ∅;
              redis := store |} in
  let request := {| Http.user := ana; Http.POST := ∅ |} in
  ∃ ranking most_viewed,
    str <$> ranking =
      (Redis.ranked true (Redis.zset "image_ranking" (redis w))).*1 ∧
    StronglySorted (score_desc (redis w)) ranking ∧
    ImagesViews.image_ranking int_decimal request w =
      (inr (Http.Render "images/image/ranking.html"
              (Http.RankingContext "images" most_viewed)), w) ∧
    most_viewed.*1 = filter (λ pk, is_Some (images w !! pk)) (take 10 ranking) ∧
    StronglySorted (score_desc (redis w)) most_viewed.*1 ∧
    (∀ pk row, (pk, row) ∈ most_viewed → images w !! pk = Some row) ∧
    (length most_viewed ≤ 10)%nat.
Proof.
  intros ana row store w request.
  apply (image_ranking_top int_decimal int_decimal_str request w); [reflexivity|].
  intros member [score Hmember]%elem_of_dom.
  change (({[ "3" := 1; "7" := 2; "12" := 5 ]} : gmap string Z) !! member = Some score)
    in Hmember.
  apply lookup_insert_Some in Hmember as [[<- _] | [_ Hmember]]; [by exists 3|].
  apply lookup_insert_Some in Hmember as [[<- _] | [_ Hmember]]; [by exists 7|].
  apply lookup_singleton_Some in Hmember as [<- _]. by exists 12.
Defined.

(** The table lists image 3 before image 7 (it is newer); the page lists
    7 before 3, as the ranking does, and leaves out 12, which has no row. *)
Example image_ranking_reorders :
  let ana := {| Auth.id := 1; Auth.username := "ana" |} in
  let row t := {| ImagesModels.user_id := 1; ImagesModels.title := "Sunset";
                  ImagesModels.slug := "sunset"; ImagesModels.url := "";
                  ImagesModels.image := ""; ImagesModels.description := "";
                  ImagesModels.created := t; ImagesModels.total_likes := 0 |} in
  let store := {| Redis.unreachable := None;
                  Redis.strings := ∅;
                  Redis.zsets :=
                    {[ "image_ranking" := {[ "3" := 1; "7" := 2; "12" := 5 ]} ]} |} in
  let w := {| users := [ana]; contacts := []; actions := [];
              images := {[ 3 := row 9; 7 := row 4 ]}; images_users_like := ∅;
              redis := store |} in
  let request := {| Http.user := ana; Http.POST := ∅ |} in
  (ImagesViews.filter_id_in [12; 7; 3] w).1 = inr [(3, row 9); (7, row 4)] ∧
  (ImagesViews.image_ranking int_decimal request w).1 =
    inr (Http.Render "images/image/ranking.html"
           (Http.RankingContext "images" [(7, row 4); (3, row 9)])).
Proof. split; vm_compute; reflexivity. Qed.

(** ** One counter per image *)

Section PerImage.
Import ImagesModels Http ImagesViews.

Lemma string_length_app (s t : string) :
  String.length (s +:+ t) = (String.length s + String.length t)%nat.
Proof. induction s as [|a s IH]; simpl; [done | by rewrite IH]. Qed.

Lemma string_app_inj_r (s1 s2 t : string) : s1 +:+ t = s2 +:+ t → s1 = s2.
Proof.
  revert s2. induction s1 as [|a s1 IH]; intros [|b s2] Heq; simpl in Heq.
  - done.
  - apply (f_equal String.length) in Heq. simpl in Heq.
    rewrite !string_length_app in Heq. simpl in Heq. lia.
  - apply (f_equal String.length) in Heq. simpl in Heq.
    rewrite !string_length_app in Heq. simpl in Heq. lia.
  - injection Heq as -> Heq. f_equal. by apply IH.
Qed.

Lemma str_inj a b : str a = str b → a = b.
Proof.
  intros Heq. apply (f_equal int_decimal) in Heq.
  rewrite !int_decimal_str in Heq. by injection Heq.
Qed.

(** Different images have different counter keys. *)
Lemma views_key_inj a b :
  "image:" +:+ str a +:+ ":views" = "image:" +:+ str b +:+ ":views" → a = b.
Proof.
  intros Heq. apply (inj (String.app "image:")) in Heq.
  by apply string_app_inj_r, str_inj in Heq.
Qed.

(** A view of one image leaves the counter and the score of every other
    image as they were. *)
Lemma image_detail_other_image request pk slug w pk' :
  pk ≠ pk' →
  let w' := (image_detail request pk slug w).2 in
  views (redis w') pk' = views (redis w) pk' ∧
  ranking_score (redis w') pk' = ranking_score (redis w) pk'.
Proof.
  intros Hne w'. unfold w', image_detail. rewrite run_bind.
  pose proof (get_image_or_404_read_only pk slug w) as Hro.
  destruct (get_image_or_404 pk slug w) as [[e|image] w1] eqn:Hget;
    simpl in Hro; subst w1; [done|].
  assert (image.1 = pk) as ->.
  { unfold get_image_or_404 in Hget. rewrite run_gets_bind in Hget.
    destruct (images w !! pk); [case_decide|]; by inversion Hget. }
  destruct (Redis.unreachable (redis w)) as [reason|] eqn:Hup.
  { rewrite run_bind, run_command, (incr_down _ _ _ Hup). cbn [fst snd].
    by rewrite with_redis_same. }
  rewrite run_bind, run_command, (incr_up _ _ Hup). cbn [fst snd].
  rewrite run_bind, run_command, zincrby_up by done. cbn [fst snd].
  rewrite run_ret. cbn [snd redis with_redis]. split.
  - unfold views. cbn [Redis.strings]. rewrite lookup_insert_ne; [done|].
    intros Heq. by apply views_key_inj in Heq.
  - unfold ranking_score, Redis.zscore, Redis.zset. cbn [Redis.zsets].
    rewrite lookup_insert_eq. cbn [from_option Datatypes.id].
    rewrite lookup_insert_ne; [done|]. intros Heq. by apply str_inj in Heq.
Qed.

End PerImage.

(** ** View counting, image by image *)

Section ViewCounterKeys.
Import Auth ImagesModels Http ImagesViews.

Implicit Types (w : World) (request : Request) (row : Image).

(** C4. With the store up, [k] views in sequence of an existing image
    return the counter values [c+1 .. c+k], [c] being the counter before;
    afterwards the counter stands at [c+k] and the image's score in the
    ranking has grown by [k], while the counter and the score of every
    other image are what they were: the counter is kept per image, under
    the image's id.  On a fresh store the last value returned and the
    score are both [k]. *)
Theorem record_view_k_times request pk slug row k w :
  Redis.unreachable (redis w) = None →
  images w !! pk = Some row → ImagesModels.slug row = slug →
  ∃ w',
    times k (image_detail request pk slug) w =
      (inr ((λ j, Render "images/image/detail.html"
                    (DetailContext "images" (pk, row) (views (redis w) pk + j)))
            <$> seqZ 1 (Z.of_nat k)), w') ∧
    views (redis w') pk = views (redis w) pk + Z.of_nat k ∧
    ranking_score (redis w') pk = ranking_score (redis w) pk + Z.of_nat k ∧
    ∀ pk', pk' ≠ pk →
      views (redis w') pk' = views (redis w) pk' ∧
      ranking_score (redis w') pk' = ranking_score (redis w) pk'.
Proof.
  intros Hup Hrow Hslug. revert w Hup Hrow.
  induction k as [|k IH]; intros w Hup Hrow.
  - exists w. simpl. repeat split; lia.
  - destruct (image_detail_counts request pk slug w row Hup Hrow Hslug)
      as (w1 & Hrun & Hup1 & Himg1 & Hviews1 & Hscore1).
    destruct (IH w1 Hup1) as (w' & Hrest & Hviews & Hscore & Hothers);
      [by rewrite Himg1|].
    exists w'. split; [|split; [lia|split; [lia|]]].
    + cbn [times]. rewrite (run_bind_inr _ _ _ _ _ Hrun).
      rewrite (run_bind_inr _ _ _ _ _ Hrest), run_ret.
      do 2 f_equal. rewrite Nat2Z.inj_succ, (seqZ_cons 1 (Z.succ (Z.of_nat k))) by lia.
      rewrite fmap_cons. f_equal.
      rewrite Z.pred_succ, <- (fmap_add_seqZ 1 1), <- list_fmap_compose.
      apply list_fmap_ext. intros _ j _. simpl. rewrite Hviews1.
      do 2 f_equal. lia.
    + intros pk' Hne. destruct (Hothers pk' Hne) as [-> ->].
      pose proof (image_detail_other_image request pk slug w pk') as Hstep.
      rewrite Hrun in Hstep. apply Hstep. done.
Qed.

End ViewCounterKeys.

Lemma record_view_three_times :
  let ana := {| Auth.id := 1; Auth.username := "ana" |} in
  let row := {| ImagesModels.user_id := 1; ImagesModels.title := "Sunset";
                ImagesModels.slug := "sunset"; ImagesModels.url := "";
                ImagesModels.image := ""; ImagesModels.description := "";
                ImagesModels.created := 0; ImagesModels.total_likes := 0 |} in
  let w := {| users := [ana]; contacts := []; actions := [];
              images := {[ 42 := row ]}; images_users_like := ∅;
              redis := Redis.empty |} in
  let request := {| Http.user := ana; Http.POST := ∅ |} in
  let page viewed :=
    Http.Render "images/image/detail.html"
      (Http.DetailContext "images" (42, row) viewed) in
  ∃ w',
    times 3 (ImagesViews.image_detail request 42 "sunset") w =
      (inr [page 1; page 2; page 3], w') ∧
    default 0 (Redis.strings (redis w') !! "image:42:views") = 3 ∧
    default 0 (Redis.zscore "image_ranking" "42" (redis w')) = 3 ∧
    ∀ pk', pk' ≠ 42 →
      views (redis w') pk' = views (redis w) pk' ∧
      ranking_score (redis w') pk' = ranking_score (redis w) pk'.
Proof.
  intros ana row w request page.
  apply (record_view_k_times request 42 "sunset" row 3 w); reflexivity.
Defined.

(** * Further properties *)

(** ** The action recorder: what a filled table looks like *)

Section RecordedActions.
Import Auth ContentTypes Actions.

Implicit Types (user : User) (verb : string) (target : option Object).
Implicit Types (objects : list Action).

(** A row the new row would be suppressed by is similar to the call, as
    long as it is inside the window. *)
Lemma suppresses_similar now saved user verb target objects a :
  a ∈ objects →
  suppresses a (new_action saved user verb target) →
  now - timedelta 60 ≤ created a →
  a ∈ similar_actions now user verb target objects.
Proof.
  intros Hin (Huser & Hverb & Htarget) Hwindow.
  apply elem_of_similar_actions. split; [done|]. split; [done|].
  split; [done|]. split; [done|].
  destruct target as [obj|]; [|done]. simpl in Htarget.
  destruct Htarget as [[? _] | (_ & ? & ?)]; done.
Qed.

Lemma spaced_snoc objects b :
  spaced objects →
  (∀ a, a ∈ objects → suppresses a b → created a + timedelta 60 < created b) →
  spaced (objects ++ [b]).
Proof.
  intros Hspaced Hnew i j a c Hij Hi Hj Hsup.
  assert (i < length objects)%nat as Hlen.
  { apply lookup_lt_Some in Hj. rewrite length_app in Hj. simpl in Hj. lia. }
  rewrite lookup_app_l in Hi by done.
  destruct (decide (j < length objects)%nat) as [Hj'|Hj'].
  - rewrite lookup_app_l in Hj by done. exact (Hspaced i j a c Hij Hi Hj Hsup).
  - rewrite lookup_app_r in Hj by lia.
    apply list_lookup_singleton_Some in Hj as [_ <-].
    apply Hnew; [|done]. by eapply list_elem_of_lookup_2.
Qed.

Lemma create_action_spaced now saved user verb target objects :
  now ≤ saved → spaced objects →
  spaced (create_action now saved user verb target objects).2.
Proof.
  intros Hclock Hspaced. unfold create_action.
  destruct (similar_actions now user verb target objects) eqn:Hsim; [|done].
  simpl. apply spaced_snoc; [done|]. intros a Hin Hsup.
  destruct (decide (now - timedelta 60 ≤ created a)) as [Hwindow|Hold].
  - pose proof (suppresses_similar now saved user verb target objects a Hin Hsup Hwindow)
      as Ha.
    rewrite Hsim in Ha. by apply not_elem_of_nil in Ha.
  - simpl. lia.
Qed.

(** X1. In a table filled by calls of [create_action] that ran one after
    another, none overlapping another, two rows of the same actor and
    verb, the later of which has no target or the target of the earlier,
    are stamped more than 60 seconds apart.  (Nothing is said of
    overlapping calls.) *)
Theorem recorded_spaced objects : recorded objects → spaced objects.
Proof.
  induction 1 as [|now saved user verb target objects _ IH Hclock].
  - intros i j a b _ Hi. by rewrite lookup_nil in Hi.
  - by apply create_action_spaced.
Qed.

Lemma recorded_spaced_three :
  let user := {| id := 1; username := "ana" |} in
  let target := Some {| model := CtImage; pk := 7 |} in
  let record t objects :=
    (create_action (timedelta t) (timedelta t) user "bookmarked image"
       target objects).2 in
  spaced (record 61 (record 30 (record 0 []))).
Proof.
  intros user target record. apply recorded_spaced.
  unfold record. repeat (apply recorded_call; [|lia]). apply recorded_nil.
Defined.

Lemma similar_actions_new_other_actor now saved user1 user2 verb1 verb2 target1 target2 :
  id user1 ≠ id user2 →
  similar_actions now user2 verb2 target2 [new_action saved user1 verb1 target1] = [].
Proof.
  intros Hne. apply similar_actions_nil. intros a Ha.
  apply elem_of_similar_actions in Ha as (Ha%list_elem_of_singleton & Hu & _).
  subst a. simpl in Hu. done.
Qed.

(** X2. Calls of different actors never suppress one another: each one
    that finds nothing similar of its own actor in the table inserts and
    returns [True], whatever the verbs, the targets and the times. *)
Theorem create_action_other_actor
    now1 saved1 now2 saved2 user1 user2 verb1 verb2 target1 target2 objects :
  id user1 ≠ id user2 →
  similar_actions now1 user1 verb1 target1 objects = [] →
  similar_actions now2 user2 verb2 target2 objects = [] →
  let first := create_action now1 saved1 user1 verb1 target1 objects in
  let second := create_action now2 saved2 user2 verb2 target2 first.2 in
  (first.1, second.1) = (true, true) ∧
  second.2 = objects ++ [new_action saved1 user1 verb1 target1;
                         new_action saved2 user2 verb2 target2].
Proof.
  intros Hne Hnone1 Hnone2 first second.
  assert (Hfirst : first = (true, objects ++ [new_action saved1 user1 verb1 target1]))
    by by apply create_action_inserts.
  assert (Hsecond : second = (true, first.2 ++ [new_action saved2 user2 verb2 target2])).
  { apply create_action_inserts. rewrite Hfirst. simpl.
    rewrite similar_actions_app, Hnone2. simpl.
    by apply similar_actions_new_other_actor. }
  rewrite Hsecond, Hfirst. simpl. by rewrite <- app_assoc.
Qed.

Lemma create_action_other_actor_same_second :
  let ana := {| id := 1; username := "ana" |} in
  let bob := {| id := 2; username := "bob" |} in
  let target := Some {| model := CtImage; pk := 7 |} in
  let first := create_action 0 0 ana "likes" target [] in
  let second := create_action 0 0 bob "likes" target first.2 in
  (first.1, second.1) = (true, true) ∧
  second.2 = [] ++ [new_action 0 ana "likes" target; new_action 0 bob "likes" target].
Proof.
  intros ana bob target.
  apply (create_action_other_actor 0 0 0 0 ana bob "likes" "likes" target target []);
    [discriminate | reflexivity | reflexivity].
Defined.

End RecordedActions.

(** ** The follow graph: what one request does *)

Section FollowRequests.
Import Auth AccountModels Http AccountViews.

Implicit Types (contacts : list Contact) (w : World) (request : Request).

Lemma user_follow_run saved request w user :
  truthy (POST request !! "username") = true →
  get_user_or_404 (default "" (POST request !! "username")) w = (inr user, w) →
  user_follow saved request w =
    (inr (HttpResponse "User followed successfully"),
     if decide (id (Http.user request) ≠ id user)
     then with_contacts (followers_add saved user (Http.user request)) w
     else w).
Proof.
  intros Htruthy Hget. unfold user_follow. rewrite Htruthy.
  rewrite run_bind, (run_bind_inr _ _ _ _ _ Hget). by case_decide.
Qed.

Lemma user_unfollow_run request w user :
  truthy (POST request !! "username") = true →
  get_user_or_404 (default "" (POST request !! "username")) w = (inr user, w) →
  user_unfollow request w =
    (inr (HttpResponse "User unfollowed successfully"),
     if decide (id (Http.user request) ≠ id user)
     then with_contacts (followers_remove user (Http.user request)) w
     else w).
Proof.
  intros Htruthy Hget. unfold user_unfollow. rewrite Htruthy.
  rewrite run_bind, (run_bind_inr _ _ _ _ _ Hget). by case_decide.
Qed.

Lemma get_user_or_404_with_contacts username f w user :
  get_user_or_404 username w = (inr user, w) →
  get_user_or_404 username (with_contacts f w) = (inr user, with_contacts f w).
Proof.
  unfold get_user_or_404. rewrite !run_gets_bind. cbn [users with_contacts].
  destruct (filter _ (users w)) as [|u [|??]]; intros [= <-]; done.
Qed.

(** X3. A follow request naming another, existing user adds exactly the
    edge from the requester to that user, an unfollow request removes
    exactly that edge; no other edge and no other table changes. *)
Theorem user_follow_edge saved request w user :
  truthy (POST request !! "username") = true →
  get_user_or_404 (default "" (POST request !! "username")) w = (inr user, w) →
  id (Http.user request) ≠ id user →
  let followed := (user_follow saved request w).2 in
  let unfollowed := (user_unfollow request w).2 in
  (∀ a b, follows (contacts followed) a b ↔
          follows (contacts w) a b ∨ (a = id (Http.user request) ∧ b = id user)) ∧
  (∀ a b, follows (contacts unfollowed) a b ↔
          follows (contacts w) a b ∧ ¬ (a = id (Http.user request) ∧ b = id user)) ∧
  followed = with_contacts (λ _, contacts followed) w ∧
  unfollowed = with_contacts (λ _, contacts unfollowed) w.
Proof.
  intros Htruthy Hget Hne followed unfollowed.
  unfold followed, unfollowed.
  rewrite (user_follow_run _ _ _ _ Htruthy Hget),
    (user_unfollow_run _ _ _ Htruthy Hget), !decide_True by done.
  cbn [snd contacts with_contacts]. split; [|split; [|done]].
  - intros a b. apply follows_followers_add.
  - intros a b. apply follows_followers_remove.
Qed.

Lemma user_follow_edge_ana_bob :
  let ana := {| Auth.id := 1; Auth.username := "ana" |} in
  let bob := {| Auth.id := 2; Auth.username := "bob" |} in
  let w := {| users := [ana; bob]; contacts := []; actions := []; images := ∅;
              images_users_like := ∅; redis := Redis.empty |} in
  let request := {| Http.user := ana; Http.POST := {[ "username" := "bob" ]} |} in
  let followed := (user_follow 5 request w).2 in
  let unfollowed := (user_unfollow request w).2 in
  (∀ a b, follows (contacts followed) a b ↔
          follows (contacts w) a b ∨ (a = 1 ∧ b = 2)) ∧
  (∀ a b, follows (contacts unfollowed) a b ↔
          follows (contacts w) a b ∧ ¬ (a = 1 ∧ b = 2)) ∧
  followed = with_contacts (λ _, contacts followed) w ∧
  unfollowed = with_contacts (λ _, contacts unfollowed) w.
Proof.
  intros ana bob w request.
  apply (user_follow_edge 5 request w bob); [reflexivity | reflexivity | discriminate].
Defined.

Lemma followers_add_twice saved1 saved2 user obj contacts :
  followers_add saved2 user obj (followers_add saved1 user obj contacts) =
  followers_add saved1 user obj contacts.
Proof.
  unfold followers_add at 1. rewrite decide_True; [done|].
  apply Exists_exists.
  destruct (follows_followers_add saved1 user obj contacts (id obj) (id user))
    as [_ (c & ? & ? & ?)]; [by right|]. eauto.
Qed.

(** X4. Following is idempotent: repeating a follow request gets the same
    answer and leaves the world as the first request left it, so no pair
    of users ever gets a second contact row this way. *)
Theorem user_follow_twice saved1 saved2 request w :
  let first := user_follow saved1 request w in
  user_follow saved2 request first.2 = first.
Proof.
  intros first. unfold first.
  destruct (truthy (POST request !! "username")) eqn:Htruthy;
    [|unfold user_follow; by rewrite Htruthy].
  pose proof (get_user_or_404_read_only (default "" (POST request !! "username")) w) as Hro.
  destruct (get_user_or_404 (default "" (POST request !! "username")) w)
    as [[e|user] w1] eqn:Hget; simpl in Hro; subst w1.
  - assert (user_follow saved1 request w = (inl e, w)) as Hrun.
    { unfold user_follow. rewrite Htruthy, run_bind. by rewrite (run_bind_inl _ _ _ _ _ Hget). }
    rewrite Hrun. simpl. unfold user_follow.
    rewrite Htruthy, run_bind. by rewrite (run_bind_inl _ _ _ _ _ Hget).
  - rewrite (user_follow_run saved1 _ _ _ Htruthy Hget).
    destruct (decide (id (Http.user request) ≠ id user)) as [Hne|Heq]; simpl.
    + rewrite (user_follow_run saved2 _ _ user Htruthy)
        by by apply get_user_or_404_with_contacts.
      rewrite decide_True by done. f_equal.
      unfold with_contacts. simpl. f_equal. apply followers_add_twice.
    + rewrite (user_follow_run saved2 _ _ user Htruthy Hget).
      by rewrite decide_False.
Qed.

Lemma followers_remove_add saved user obj contacts :
  ¬ follows contacts (id obj) (id user) →
  followers_remove user obj (followers_add saved user obj contacts) = contacts.
Proof.
  intros Hnot. unfold followers_add. rewrite decide_False.
  - unfold followers_remove. rewrite filter_app, filter_cons_False, filter_nil, app_nil_r
      by (simpl; tauto).
    induction contacts as [|c l IH]; [done|].
    rewrite filter_cons_True.
    + f_equal. apply IH. intros (c' & ? & ?). apply Hnot. exists c'.
      split; [by right | done].
    + intros [? ?]. apply Hnot. exists c. split; [by left | done].
  - intros (c & ? & ? & ?)%Exists_exists. apply Hnot. by exists c.
Qed.

(** X5. Following a user one does not follow yet and then unfollowing
    them brings the whole world back to what it was. *)
Theorem user_follow_unfollow_round_trip saved request w user :
  truthy (POST request !! "username") = true →
  get_user_or_404 (default "" (POST request !! "username")) w = (inr user, w) →
  ¬ follows (contacts w) (id (Http.user request)) (id user) →
  (user_unfollow request (user_follow saved request w).2).2 = w.
Proof.
  intros Htruthy Hget Hnot.
  rewrite (user_follow_run saved _ _ _ Htruthy Hget).
  destruct (decide (id (Http.user request) ≠ id user)) as [Hne|Heq]; simpl.
  - rewrite (user_unfollow_run _ _ user Htruthy)
      by by apply get_user_or_404_with_contacts.
    rewrite decide_True by done. simpl.
    unfold with_contacts. simpl. rewrite followers_remove_add by done.
    by destruct w.
  - rewrite (user_unfollow_run _ _ user Htruthy Hget). by rewrite decide_False.
Qed.

Lemma user_follow_unfollow_round_trip_ana_bob :
  let ana := {| Auth.id := 1; Auth.username := "ana" |} in
  let bob := {| Auth.id := 2; Auth.username := "bob" |} in
  let w := {| users := [ana; bob];
              contacts := [{| user_from := 2; user_to := 1; created := 0 |}];
              actions := []; images := ∅;
              images_users_like := ∅; redis := Redis.empty |} in
  let request := {| Http.user := ana; Http.POST := {[ "username" := "bob" ]} |} in
  (user_unfollow request (user_follow 5 request w).2).2 = w.
Proof.
  intros ana bob w request.
  apply (user_follow_unfollow_round_trip 5 request w bob); [reflexivity | reflexivity |].
  intros (c & Hc & Hfrom & Hto). apply list_elem_of_singleton in Hc. by subst c.
Defined.

(** X6. A follow or unfollow request naming nobody the user table knows
    raises [Http404] and changes nothing. *)
Theorem user_follow_unknown_user saved request w :
  truthy (POST request !! "username") = true →
  (∀ u, u ∈ users w → username u ≠ default "" (POST request !! "username")) →
  user_follow saved request w = (inl Http404, w) ∧
  user_unfollow request w = (inl Http404, w).
Proof.
  intros Htruthy Hnone.
  assert (get_user_or_404 (default "" (POST request !! "username")) w = (inl Http404, w))
    as Hget.
  { unfold get_user_or_404. rewrite run_gets_bind, filter_none; [done|].
    intros u Hu. by apply Hnone. }
  split.
  - unfold user_follow. rewrite Htruthy, run_bind.
    by rewrite (run_bind_inl _ _ _ _ _ Hget).
  - unfold user_unfollow. rewrite Htruthy, run_bind.
    by rewrite (run_bind_inl _ _ _ _ _ Hget).
Qed.

Lemma user_follow_unknown_user_eve :
  let ana := {| Auth.id := 1; Auth.username := "ana" |} in
  let w := {| users := [ana]; contacts := []; actions := []; images := ∅;
              images_users_like := ∅; redis := Redis.empty |} in
  let request := {| Http.user := ana; Http.POST := {[ "username" := "eve" ]} |} in
  user_follow 5 request w = (inl Http404, w) ∧
  user_unfollow request w = (inl Http404, w).
Proof.
  intros ana w request. apply (user_follow_unknown_user 5 request w); [reflexivity|].
  intros u Hu. apply list_elem_of_singleton in Hu. subst u. discriminate.
Defined.

End FollowRequests.

Section ContactRows.
Import Auth AccountModels Http AccountViews.

Implicit Types (contacts : list Contact) (w : World) (request : Request).

Lemma followers_add_unique saved user obj contacts :
  contacts_unique contacts → contacts_unique (followers_add saved user obj contacts).
Proof.
  unfold contacts_unique, followers_add. intros Hnd. case_decide as Hex; [done|].
  rewrite fmap_app. apply NoDup_app. split; [done|]. split; [|apply NoDup_singleton].
  intros pair Hin ->%list_elem_of_singleton.
  apply list_elem_of_fmap in Hin as (c & [= ? ?] & Hc).
  apply Hex, Exists_exists. by exists c.
Qed.

Lemma followers_remove_unique user obj contacts :
  contacts_unique contacts → contacts_unique (followers_remove user obj contacts).
Proof.
  unfold contacts_unique, followers_remove. intros Hnd.
  eapply sublist_NoDup; [exact Hnd|]. apply fmap_sublist, sublist_filter.
Qed.

(** X7. Follow and unfollow requests keep the contact table free of
    duplicates: if no two rows join the same pair of users before a
    request, none do after it. *)
Theorem user_follow_contacts_unique saved request w :
  contacts_unique (contacts w) →
  contacts_unique (contacts (user_follow saved request w).2) ∧
  contacts_unique (contacts (user_unfollow request w).2).
Proof.
  intros Hnd. split.
  - destruct (user_follow_graph saved request w) as [-> | (user & _ & ->)]; [done|].
    by apply followers_add_unique.
  - destruct (user_unfollow_graph request w) as [-> | (user & _ & ->)]; [done|].
    by apply followers_remove_unique.
Qed.

Lemma user_follow_contacts_unique_ana_bob :
  let ana := {| Auth.id := 1; Auth.username := "ana" |} in
  let bob := {| Auth.id := 2; Auth.username := "bob" |} in
  let w := {| users := [ana; bob];
              contacts := [{| user_from := 1; user_to := 2; created := 0 |}];
              actions := []; images := ∅;
              images_users_like := ∅; redis := Redis.empty |} in
  let request := {| Http.user := ana; Http.POST := {[ "username" := "bob" ]} |} in
  contacts_unique (contacts (user_follow 5 request w).2) ∧
  contacts_unique (contacts (user_unfollow request w).2).
Proof.
  intros ana bob w request. apply (user_follow_contacts_unique 5 request w).
  apply (bool_decide_unpack _). vm_compute. exact I.
Defined.

End ContactRows.

(** ** The feed: what it never shows, and what comes first *)

Section FeedContents.
Import Auth AccountModels Http AccountViews.

#[local] Existing Instances newest_first_total newest_first_trans.

(** X8. Whatever the follow graph, the dashboard answers with at most ten
    rows, none of them the viewer's own, and changes nothing. *)
Theorem dashboard_never_own request w :
  ∃ feed,
    dashboard request w =
      (inr (Render "account/dashboard.html" (DashboardContext "dashboard" feed)), w) ∧
    (length feed ≤ 10)%nat ∧
    ∀ a, a ∈ feed → a ∈ actions w ∧ Actions.user_id a ≠ id (user request).
Proof.
  eexists. split; [apply dashboard_selection|]. split.
  - rewrite length_take. lia.
  - intros a Ha. apply subseteq_take in Ha. unfold Actions.ordering in Ha.
    rewrite merge_sort_Permutation in Ha.
    apply list_elem_of_filter in Ha as [[? _] ?]. done.
Qed.

(** The first row of an ordered table is the one newer than all others. *)
Lemma ordering_newest rows new :
  new ∈ rows →
  (∀ a, a ∈ rows → a ≠ new → Actions.created a < Actions.created new) →
  ∃ rest, Actions.ordering rows = new :: rest.
Proof.
  intros Hin Hnewest. unfold Actions.ordering.
  pose proof (StronglySorted_merge_sort Actions.newest_first rows) as Hsorted.
  pose proof (merge_sort_Permutation Actions.newest_first rows) as Hperm.
  destruct (merge_sort Actions.newest_first rows) as [|h t].
  { rewrite <- Hperm in Hin. by apply not_elem_of_nil in Hin. }
  destruct (decide (h = new)) as [->|Hne]; [by exists t|].
  apply StronglySorted_inv in Hsorted as [_ Hhead].
  assert (new ∈ t) as Hnew.
  { rewrite <- Hperm in Hin. apply elem_of_cons in Hin as [->|?]; done. }
  rewrite Forall_forall in Hhead. specialize (Hhead new Hnew).
  unfold Actions.newest_first in Hhead.
  assert (h ∈ rows) as Hh by (rewrite <- Hperm; left).
  specialize (Hnewest h Hh Hne). lia.
Qed.

(** X9. When a user the viewer follows records an action that is inserted
    and is newer than every row of the table, the viewer's dashboard shows
    it first. *)
Theorem dashboard_shows_new_action_first now saved request actor verb target w :
  id actor ∈ following (user request) (contacts w) →
  id actor ≠ id (user request) →
  Actions.similar_actions now actor verb target (actions w) = [] →
  (∀ a, a ∈ actions w → Actions.created a < saved) →
  let w' := (create_action now saved actor verb target w).2 in
  ∃ rest,
    dashboard request w' =
      (inr (Render "account/dashboard.html"
              (DashboardContext "dashboard"
                 (Actions.new_action saved actor verb target :: rest))), w').
Proof.
  intros Hfollows Hother Hnone Hnewest w'.
  assert (Hw' : w' = with_actions
            (λ _, actions w ++ [Actions.new_action saved actor verb target]) w).
  { unfold w', create_action. by rewrite create_action_inserts. }
  rewrite dashboard_selection.
  set (new := Actions.new_action saved actor verb target).
  set (selected := filter _ (actions w')).
  destruct (ordering_newest selected new) as [rest Hrest].
  - unfold selected. apply list_elem_of_filter. split.
    + split; [done|]. right. by rewrite Hw'.
    + rewrite Hw'. cbn [actions with_actions]. apply elem_of_app. right.
      by apply list_elem_of_singleton.
  - intros a [_ Ha]%list_elem_of_filter Hne. rewrite Hw' in Ha.
    cbn [actions with_actions] in Ha.
    apply elem_of_app in Ha as [Ha | Ha%list_elem_of_singleton]; [|done].
    by apply Hnewest.
  - rewrite Hrest. by exists (take 9 rest).
Qed.

End FeedContents.

Lemma dashboard_shows_new_action_first_bob :
  let ana := {| Auth.id := 1; Auth.username := "ana" |} in
  let bob := {| Auth.id := 2; Auth.username := "bob" |} in
  let row u t := Actions.new_action t u "likes" None in
  let w := {| users := [ana; bob];
              contacts := [{| AccountModels.user_from := 1; AccountModels.user_to := 2;
                              AccountModels.created := 0 |}];
              actions := [row bob 10; row ana 20];
              images := ∅; images_users_like := ∅; redis := Redis.empty |} in
  let request := {| Http.user := ana; Http.POST := ∅ |} in
  let target := Some {| ContentTypes.model := ContentTypes.CtImage; ContentTypes.pk := 7 |} in
  let w' := (create_action (timedelta 100) (timedelta 100) bob "bookmarked image" target w).2 in
  ∃ rest,
    AccountViews.dashboard request w' =
      (inr (Http.Render "account/dashboard.html"
              (Http.DashboardContext "dashboard"
                 (Actions.new_action (timedelta 100) bob "bookmarked image" target :: rest))), w').
Proof.
  intros ana bob row w request target.
  apply (dashboard_shows_new_action_first (timedelta 100) (timedelta 100) request bob
           "bookmarked image" target w).
  - by apply list_elem_of_singleton.
  - discriminate.
  - reflexivity.
  - intros a Ha. unfold w in Ha. cbn [actions] in Ha.
    apply elem_of_cons in Ha as [-> | Ha%list_elem_of_singleton]; [|subst a];
      reflexivity.
Defined.

(** ** Likes: how requests compose *)

Section LikeRequests.
Import Auth ContentTypes ImagesModels Http ImagesViews.
Context (slugify : string → string) (int : string → option Z).

Implicit Types (w : World) (request : Request) (row : Image).

(** X10. Liking the same image twice within a minute: both requests are
    answered [ok], the requester is in the image's likes once, the stored
    count is the size of the set, and one action is recorded, the second
    being suppressed by [create_action]. *)
Theorem image_like_twice now1 saved1 now2 saved2 request w s pk row :
  POST request !! "id" = Some s → s ≠ "" →
  POST request !! "action" = Some "like" →
  int s = Some pk → images w !! pk = Some row →
  Actions.similar_actions now1 (user request) "likes"
    (Some {| model := CtImage; ContentTypes.pk := pk |}) (actions w) = [] →
  now1 ≤ saved1 → now2 ≤ now1 + timedelta 60 →
  ∃ w1 w2 row',
    image_like slugify int now1 saved1 request w = (inr (JsonResponse "ok"), w1) ∧
    image_like slugify int now2 saved2 request w1 = (inr (JsonResponse "ok"), w2) ∧
    actions w2 =
      actions w ++ [Actions.new_action saved1 (user request) "likes"
                      (Some {| model := CtImage; ContentTypes.pk := pk |})] ∧
    images_users_like w2 = images_users_like w ∪ {[ (pk, id (user request)) ]} ∧
    images w2 !! pk = Some row' ∧
    total_likes row' = Z.of_nat (size (users_like pk w2)).
Proof.
  intros Hid Hs Haction Hint Hrow Hnone Hclock Hwithin.
  destruct (image_like_ok slugify int now1 saved1 request w s "like" pk row)
    as (row1 & Hrun1 & _); [done..|].
  rewrite !decide_True in Hrun1 by done.
  rewrite create_action_inserts in Hrun1 by done. cbn [snd] in Hrun1.
  set (w1 := {| users := users w; contacts := _; actions := _ |}) in Hrun1.
  destruct (image_like_ok slugify int now2 saved2 request w1 s "like" pk row1)
    as (row2 & Hrun2 & Hlikes2); [done.. | by apply lookup_insert_eq |].
  rewrite !decide_True in Hrun2 by done. rewrite !decide_True in Hlikes2 by done.
  rewrite create_action_suppressed in Hrun2.
  2:{ cbn [actions w1]. rewrite similar_actions_app, similar_actions_new by lia.
      by destruct (Actions.similar_actions now2 _ _ _ (actions w)). }
  cbn [snd images_users_like w1 actions images users contacts redis] in Hrun2, Hlikes2.
  eexists w1, _, row2. split; [exact Hrun1|]. split; [exact Hrun2|].
  cbn [actions images images_users_like]. split; [done|].
  assert (images_users_like w ∪ {[(pk, id (user request))]} ∪ {[(pk, id (user request))]}
          = images_users_like w ∪ {[(pk, id (user request))]}) as Hsame
    by (by rewrite <- (assoc_L (∪)), (idemp_L (∪))).
  split; [done|]. split; [by rewrite lookup_insert_eq|].
  by rewrite Hlikes2.
Qed.

(** X11. Liking an image one did not like and then unliking it leaves the
    join table as it was and the image's stored count at the size of its
    set; the action the like recorded stays in the table. *)
Theorem image_like_unlike_round_trip now1 saved1 now2 saved2 like unlike w s a pk row :
  user like = user unlike →
  POST like !! "id" = Some s → POST unlike !! "id" = Some s → s ≠ "" →
  POST like !! "action" = Some "like" →
  POST unlike !! "action" = Some a → a ≠ "" → a ≠ "like" →
  int s = Some pk → images w !! pk = Some row →
  (pk, id (user like)) ∉ images_users_like w →
  ∃ w1 w2 row',
    image_like slugify int now1 saved1 like w = (inr (JsonResponse "ok"), w1) ∧
    image_like slugify int now2 saved2 unlike w1 = (inr (JsonResponse "ok"), w2) ∧
    images_users_like w2 = images_users_like w ∧
    images w2 !! pk = Some row' ∧
    total_likes row' = Z.of_nat (size (users_like pk w)) ∧
    actions w2 = actions w1.
Proof.
  intros Huser Hid1 Hid2 Hs Hlike Hunlike Ha Hane Hint Hrow Hnot.
  destruct (image_like_ok slugify int now1 saved1 like w s "like" pk row)
    as (row1 & Hrun1 & _); [done..|].
  rewrite !decide_True in Hrun1 by done.
  set (w1 := {| users := users w; contacts := _; actions := _ |}) in Hrun1.
  destruct (image_like_ok slugify int now2 saved2 unlike w1 s a pk row1)
    as (row2 & Hrun2 & Hlikes2); [done.. | by apply lookup_insert_eq |].
  rewrite !decide_False in Hrun2 by done. rewrite !decide_False in Hlikes2 by done.
  cbn [snd images_users_like w1 actions images users contacts redis] in Hrun2, Hlikes2.
  rewrite <- Huser in Hrun2, Hlikes2.
  assert ((images_users_like w ∪ {[(pk, id (user like))]}) ∖ {[(pk, id (user like))]}
          = images_users_like w) as Hsame.
  { apply set_eq. intros x.
    rewrite elem_of_difference, elem_of_union, elem_of_singleton.
    split; [tauto|]. intros Hx. split; [tauto|]. by intros ->. }
  rewrite Hsame in Hrun2, Hlikes2.
  eexists w1, _, row2. split; [exact Hrun1|]. split; [exact Hrun2|].
  cbn [actions images images_users_like]. split; [done|].
  split; [by rewrite lookup_insert_eq|]. split; [|done]. by rewrite Hlikes2.
Qed.

(** X12. A form value for the image id that is not an integer makes
    [image_like] raise [ValueError] (only [Image.DoesNotExist] is caught)
    and changes nothing. *)
Theorem image_like_non_integer_id now saved request w s :
  POST request !! "id" = Some s → s ≠ "" →
  truthy (POST request !! "action") = true →
  int s = None →
  image_like slugify int now saved request w = (inl ValueError, w).
Proof. apply image_like_malformed. Qed.

End LikeRequests.

Lemma image_like_twice_ana :
  let ana := {| Auth.id := 1; Auth.username := "ana" |} in
  let row := {| ImagesModels.user_id := 2; ImagesModels.title := "Sunset";
                ImagesModels.slug := "sunset"; ImagesModels.url := "";
                ImagesModels.image := ""; ImagesModels.description := "";
                ImagesModels.created := 0; ImagesModels.total_likes := 0 |} in
  let w := {| users := [ana]; contacts := []; actions := [];
              images := {[ 7 := row ]}; images_users_like := ∅;
              redis := Redis.empty |} in
  let request := {| Http.user := ana;
                    Http.POST := {[ "id" := "7"; "action" := "like" ]} |} in
  ∃ w1 w2 row',
    ImagesViews.image_like (λ s, s) int_decimal 0 0 request w =
      (inr (Http.JsonResponse "ok"), w1) ∧
    ImagesViews.image_like (λ s, s) int_decimal (timedelta 30) (timedelta 30) request w1 =
      (inr (Http.JsonResponse "ok"), w2) ∧
    actions w2 =
      actions w ++ [Actions.new_action 0 ana "likes"
                      (Some {| ContentTypes.model := ContentTypes.CtImage;
                               ContentTypes.pk := 7 |})] ∧
    images_users_like w2 = images_users_like w ∪ {[ (7, 1) ]} ∧
    images w2 !! 7 = Some row' ∧
    ImagesModels.total_likes row' = Z.of_nat (size (ImagesViews.users_like 7 w2)).
Proof.
  intros ana row w request.
  apply (image_like_twice (λ s, s) int_decimal 0 0 (timedelta 30) (timedelta 30)
           request w "7" 7 row); try reflexivity; try discriminate; lia.
Defined.

Lemma image_like_unlike_round_trip_ana :
  let ana := {| Auth.id := 1; Auth.username := "ana" |} in
  let row := {| ImagesModels.user_id := 2; ImagesModels.title := "Sunset";
                ImagesModels.slug := "sunset"; ImagesModels.url := "";
                ImagesModels.image := ""; ImagesModels.description := "";
                ImagesModels.created := 0; ImagesModels.total_likes := 1 |} in
  let w := {| users := [ana]; contacts := []; actions := [];
              images := {[ 7 := row ]}; images_users_like := {[ (7, 2) ]};
              redis := Redis.empty |} in
  let like := {| Http.user := ana;
                 Http.POST := {[ "id" := "7"; "action" := "like" ]} |} in
  let unlike := {| Http.user := ana;
                   Http.POST := {[ "id" := "7"; "action" := "unlike" ]} |} in
  ∃ w1 w2 row',
    ImagesViews.image_like (λ s, s) int_decimal 0 0 like w =
      (inr (Http.JsonResponse "ok"), w1) ∧
    ImagesViews.image_like (λ s, s) int_decimal 9 9 unlike w1 =
      (inr (Http.JsonResponse "ok"), w2) ∧
    images_users_like w2 = images_users_like w ∧
    images w2 !! 7 = Some row' ∧
    ImagesModels.total_likes row' = Z.of_nat (size (ImagesViews.users_like 7 w)) ∧
    actions w2 = actions w1.
Proof.
  intros ana row w like unlike.
  apply (image_like_unlike_round_trip (λ s, s) int_decimal 0 0 9 9 like unlike w
           "7" "unlike" 7 row); try reflexivity; try discriminate.
Defined.

Lemma image_like_non_integer_id_abc :
  let ana := {| Auth.id := 1; Auth.username := "ana" |} in
  let w := {| users := [ana]; contacts := []; actions := [];
              images := ∅; images_users_like := ∅; redis := Redis.empty |} in
  let request := {| Http.user := ana;
                    Http.POST := {[ "id" := "abc"; "action" := "like" ]} |} in
  ImagesViews.image_like (λ s, s) int_decimal 0 0 request w = (inl ValueError, w).
Proof.
  intros ana w request.
  apply (image_like_non_integer_id (λ s, s) int_decimal 0 0 request w "abc");
    reflexivity || discriminate.
Defined.

(** ** What the image handlers leave alone *)

Section ImageHandlersFrames.
Import Auth ContentTypes ImagesModels Http ImagesViews.
Context (slugify : string → string) (int : string → option Z).

Implicit Types (w : World) (request : Request) (row : Image).

(** [image_like] writes the image table, the join table and the action
    table, and nothing else. *)
Lemma image_like_frames {T} (f : World → T) now saved request :
  (∀ g w, f (with_images g w) = f w) →
  (∀ g w, f (with_images_users_like g w) = f w) →
  (∀ g w, f (with_actions g w) = f w) →
  frames f (image_like slugify int now saved request).
Proof.
  intros Himages Hlikes Hactions.
  unfold image_like, get_image, users_like_add, users_like_remove,
    users_like_changed, users_like_count, save.
  destruct (truthy _ && truthy _); [|auto with frames].
  apply frames_try_except; [|auto with frames].
  apply frames_bind.
  { apply frames_bind; [auto with frames|]. intros pk.
    apply frames_bind; [auto with frames|]. intros [row|]; auto with frames. }
  intros image. apply frames_bind; [|auto with frames].
  case_decide; auto 20 with frames.
Qed.

(** X13. Whatever the request, [image_like] leaves the key-value store,
    the user table and the follow graph as they were, and changes the row
    and the likes of no image other than the one its id parameter
    names. *)
Theorem image_like_touches_one_image now saved request w :
  let w' := (image_like slugify int now saved request w).2 in
  redis w' = redis w ∧ users w' = users w ∧ contacts w' = contacts w ∧
  ∀ pk', (∀ s, POST request !! "id" = Some s → int s ≠ Some pk') →
    images w' !! pk' = images w !! pk' ∧ users_like pk' w' = users_like pk' w.
Proof.
  intros w'. split; [by apply image_like_frames|].
  split; [by apply image_like_frames|]. split; [by apply image_like_frames|].
  intros pk' Hother.
  destruct (truthy (POST request !! "id")) eqn:Hid;
    [|unfold w'; rewrite image_like_refused by auto; done].
  destruct (truthy (POST request !! "action")) eqn:Haction;
    [|unfold w'; rewrite image_like_refused by auto; done].
  apply truthy_true in Hid as (s & Hid & Hs).
  pose proof Haction as (a & Ha & Hane)%truthy_true.
  destruct (int s) as [pk|] eqn:Hint;
    [|unfold w'; by erewrite image_like_malformed].
  destruct (images w !! pk) as [row|] eqn:Hrow;
    [|unfold w'; by erewrite image_like_unknown].
  assert (pk ≠ pk') as Hne by (intros <-; by eapply Hother).
  destruct (image_like_ok slugify int now saved request w s a pk row Hid Hs Ha Hane Hint Hrow)
    as (row' & Hrun & _).
  unfold w'. rewrite Hrun. cbn [snd images]. split; [by rewrite lookup_insert_ne|].
  apply (users_like_other pk pk' (id (user request))); [done|].
  cbn [images_users_like]. destruct (decide (a = "like")); auto.
Qed.

Lemma image_detail_404 request pk slug w :
  (∀ row, images w !! pk = Some row → ImagesModels.slug row ≠ slug) →
  image_detail request pk slug w = (inl Http404, w).
Proof.
  intros Hnot. unfold image_detail, get_image_or_404.
  rewrite run_bind, run_gets_bind.
  destruct (images w !! pk) as [row|] eqn:Hrow; [|done].
  by rewrite decide_False by by apply Hnot.
Qed.

(** X14. A detail request for an id without a row, or with a slug other
    than the row's, raises [Http404] and counts nothing: the world, the
    store included, is unchanged. *)
Theorem image_detail_not_found request pk slug w :
  (∀ row, images w !! pk = Some row → ImagesModels.slug row ≠ slug) →
  image_detail request pk slug w = (inl Http404, w).
Proof. apply image_detail_404. Qed.

Lemma image_detail_down request pk slug w reason :
  Redis.unreachable (redis w) = Some reason →
  (image_detail request pk slug w).2 = w.
Proof.
  intros Hdown. unfold image_detail. rewrite run_bind.
  pose proof (get_image_or_404_read_only pk slug w) as Hro.
  destruct (get_image_or_404 pk slug w) as [[e|image] w1];
    simpl in Hro; subst w1; [done|].
  rewrite run_bind, run_command, (incr_down _ _ _ Hdown). cbn [fst snd].
  by rewrite with_redis_same.
Qed.

(** What a detail request does to the store: nothing, or one view of its
    image counted. *)
Lemma image_detail_store request pk slug w :
  redis (image_detail request pk slug w).2 = redis w ∨
  (views (redis (image_detail request pk slug w).2) pk = views (redis w) pk + 1 ∧
   ranking_score (redis (image_detail request pk slug w).2) pk =
     ranking_score (redis w) pk + 1).
Proof.
  destruct (Redis.unreachable (redis w)) as [reason|] eqn:Hup.
  { left. by erewrite image_detail_down. }
  destruct (images w !! pk) as [row|] eqn:Hrow.
  - destruct (decide (ImagesModels.slug row = slug)) as [Hslug|Hslug].
    + right.
      destruct (image_detail_counts request pk slug w row Hup Hrow Hslug)
        as (w' & -> & _ & _ & ? & ?). done.
    + left. rewrite image_detail_404; [done|]. intros row0 Hrow0. congruence.
  - left. rewrite image_detail_404; [done|]. intros row0 Hrow0. congruence.
Qed.

End ImageHandlersFrames.

Lemma image_detail_not_found_wrong_slug :
  let ana := {| Auth.id := 1; Auth.username := "ana" |} in
  let row := {| ImagesModels.user_id := 1; ImagesModels.title := "Sunset";
                ImagesModels.slug := "sunset"; ImagesModels.url := "";
                ImagesModels.image := ""; ImagesModels.description := "";
                ImagesModels.created := 0; ImagesModels.total_likes := 0 |} in
  let w := {| users := [ana]; contacts := []; actions := [];
              images := {[ 42 := row ]}; images_users_like := ∅;
              redis := Redis.empty |} in
  let request := {| Http.user := ana; Http.POST := ∅ |} in
  ImagesViews.image_detail request 42 "sunrise" w = (inl Http404, w).
Proof.
  intros ana row w request. apply (image_detail_not_found request 42 "sunrise" w).
  intros row0 Hrow0. unfold w in Hrow0. cbn [images] in Hrow0.
  apply lookup_singleton_Some in Hrow0 as [_ <-]. discriminate.
Defined.

(** ** The store under the handlers *)

Section StoreInvariants.
Import Auth ContentTypes ImagesModels Http ImagesViews.
Context (slugify : string → string) (int : string → option Z).

Implicit Types (w : World) (request : Request).

Lemma zrange_store name start end_ desc s :
  (Redis.zrange name start end_ desc s).2 = s.
Proof. unfold Redis.zrange. by destruct (Redis.unreachable s). Qed.

Lemma image_ranking_unchanged request w : (image_ranking int request w).2 = w.
Proof.
  unfold image_ranking. rewrite run_bind, run_command, zrange_store, with_redis_same.
  destruct (Redis.zrange _ _ _ _ _).1 as [e|members]; cbn [fst snd]; [done|].
  apply (frames_bind (λ w, w)); [auto with frames|]. intros ids.
  unfold filter_id_in. auto 10 with frames.
Qed.

(** X15. The ranking page only reads: whether it renders or raises, the
    world, the store included, is as it was. *)
Theorem image_ranking_read_only request w : (image_ranking int request w).2 = w.
Proof. apply image_ranking_unchanged. Qed.

(** X16. With the store up, a ranking member among the first ten that is
    not the text of an integer makes the ranking page raise [ValueError]. *)
Theorem image_ranking_value_error request w :
  Redis.unreachable (redis w) = None →
  Exists (λ member, int member = None)
    (take 10 (Redis.ranked true (Redis.zset "image_ranking" (redis w))).*1) →
  image_ranking int request w = (inl ValueError, w).
Proof.
  intros Hup Hbad. unfold image_ranking.
  rewrite run_bind, run_command, (zrange_up _ _ _ Hup). cbn [fst snd].
  rewrite with_redis_same.
  assert (mapM int (take 10 (Redis.ranked true
            (Redis.zset "image_ranking" (redis w))).*1) = None) as ->; [|done].
  by apply mapM_None.
Qed.

Lemma user_follow_frames_redis saved request :
  frames redis (AccountViews.user_follow saved request).
Proof.
  unfold AccountViews.user_follow, AccountViews.get_user_or_404.
  apply frames_bind; [|auto with frames].
  destruct (truthy _); [|auto with frames].
  apply frames_bind.
  { apply frames_bind; [auto with frames|]. intros objects.
    destruct (filter _ objects) as [|? [|??]]; auto with frames. }
  intros user. case_decide; auto with frames.
Qed.

Lemma user_unfollow_frames_redis request :
  frames redis (AccountViews.user_unfollow request).
Proof.
  unfold AccountViews.user_unfollow, AccountViews.get_user_or_404.
  apply frames_bind; [|auto with frames].
  destruct (truthy _); [|auto with frames].
  apply frames_bind.
  { apply frames_bind; [auto with frames|]. intros objects.
    destruct (filter _ objects) as [|? [|??]]; auto with frames. }
  intros user. case_decide; auto with frames.
Qed.

(** Only [image_detail] writes the store. *)
Lemma handle_store c w :
  redis (handle slugify int c w).2 = redis w ∨
  ∃ request pk slug, c = ImageDetail request pk slug.
Proof.
  destruct c as [request|saved request|request|request pk slug|now saved request|request];
    simpl.
  - by left.
  - left. apply user_follow_frames_redis.
  - left. apply user_unfollow_frames_redis.
  - right. eauto.
  - left. by apply image_like_frames.
  - left. by rewrite image_ranking_unchanged.
Qed.

(** X17. No handler ever lowers a view counter or a ranking score. *)
Theorem handle_counters_monotone c w pk :
  views (redis w) pk ≤ views (redis (handle slugify int c w).2) pk ∧
  ranking_score (redis w) pk ≤ ranking_score (redis (handle slugify int c w).2) pk.
Proof.
  destruct (handle_store c w) as [-> | (request & pk' & slug & ->)]; [lia|].
  simpl. destruct (decide (pk' = pk)) as [->|Hne].
  - destruct (image_detail_store request pk slug w) as [-> | [-> ->]]; lia.
  - destruct (image_detail_other_image request pk' slug w pk Hne) as [-> ->]. lia.
Qed.

(** X18. With the store up, a view of an existing image keeps the view
    counters and the ranking scores in step: if every image's counter
    equalled its score before, it does after. *)
Theorem image_detail_counters_agree request pk slug w :
  Redis.unreachable (redis w) = None →
  counters_agree (redis w) →
  counters_agree (redis (image_detail request pk slug w).2).
Proof.
  intros Hup Hagree pk'. destruct (decide (pk = pk')) as [<-|Hne].
  - destruct (image_detail_store request pk slug w) as [-> | [-> ->]];
      [apply Hagree|]. by rewrite Hagree.
  - destruct (image_detail_other_image request pk slug w pk' Hne) as [-> ->].
    apply Hagree.
Qed.

(** X19. Every handler keeps the ranking made of image ids: what the
    ranking page decodes is what [image_detail] wrote. *)
Theorem handle_ranking_wf c w :
  ranking_wf (redis w) → ranking_wf (redis (handle slugify int c w).2).
Proof.
  intros Hwf. destruct (handle_store c w) as [-> | (request & pk & slug & ->)];
    [done|]. simpl. by apply image_detail_ranking_wf.
Qed.

(** X20. [Image.save()] of an instance whose row is already in the table
    (an update, not the first save) keeps a slug that is not empty and
    derives an empty one from the title; it changes no other column and no
    other row; saving the saved instance again changes nothing, and the
    detail lookup by id and saved slug finds it. *)
Theorem save_slug pk row w :
  is_Some (images w !! pk) →
  ∃ row1 w1,
    save slugify (pk, row) w = (inr (pk, row1), w1) ∧
    slug row1 = (if decide (slug row = "") then slugify (title row) else slug row) ∧
    row1 = with_slug (slug row1) row ∧
    images w1 !! pk = Some row1 ∧
    (∀ pk', pk' ≠ pk → images w1 !! pk' = images w !! pk') ∧
    save slugify (pk, row1) w1 = (inr (pk, row1), w1) ∧
    get_image_or_404 pk (slug row1) w1 = (inr (pk, row1), w1).
Proof.
  intros _.
  set (row1 := if decide (slug row = "") then with_slug (slugify (title row)) row else row).
  set (w1 := with_images (<[pk := row1]>) w).
  assert (Hrun : save slugify (pk, row) w = (inr (pk, row1), w1)).
  { unfold save, row1, w1. cbn [fst snd]. by case_decide. }
  assert (Hslug : slug row1 = if decide (slug row = "") then slugify (title row) else slug row).
  { unfold row1. by case_decide. }
  assert (Hrow1 : row1 = with_slug (slug row1) row).
  { unfold row1. case_decide; [done|]. by destruct row. }
  assert (Hlookup : images w1 !! pk = Some row1) by apply lookup_insert_eq.
  exists row1, w1. split; [done|]. split; [done|]. split; [done|]. split; [done|].
  split; [|split].
  - intros pk' Hne. unfold w1. cbn [images with_images]. by rewrite lookup_insert_ne.
  - unfold save. cbn [fst snd].
    assert ((if decide (slug row1 = "")
             then (pk, with_slug (slugify (title row1)) row1) else (pk, row1)) = (pk, row1))
      as ->.
    { destruct (decide (slug row1 = "")) as [Hempty|Hempty]; [|reflexivity].
      f_equal. rewrite Hrow1. unfold with_slug. simpl. f_equal.
      rewrite Hslug in *. destruct (decide (slug row = "")) as [Hrow|Hrow]; [done|].
      congruence. }
    rewrite run_modify_bind, run_ret. f_equal.
    unfold w1, with_images. simpl. by rewrite insert_insert_eq.
  - by apply get_image_or_404_found.
Qed.

End StoreInvariants.

Lemma save_slug_untitled :
  let stored := {| ImagesModels.user_id := 1; ImagesModels.title := "Sunset";
                   ImagesModels.slug := "sunset"; ImagesModels.url := "";
                   ImagesModels.image := ""; ImagesModels.description := "";
                   ImagesModels.created := 3; ImagesModels.total_likes := 0 |} in
  let row := ImagesModels.with_slug "" stored in
  let w := {| users := []; contacts := []; actions := [];
              images := {[ 42 := stored; 43 := stored ]};
              images_users_like := ∅; redis := Redis.empty |} in
  ∃ row1 w1,
    ImagesViews.save ImagesForms.lower (42, row) w = (inr (42, row1), w1) ∧
    ImagesModels.slug row1 = "sunset" ∧
    row1 = ImagesModels.with_slug (ImagesModels.slug row1) row ∧
    images w1 !! 42 = Some row1 ∧
    (∀ pk', pk' ≠ 42 → images w1 !! pk' = images w !! pk') ∧
    ImagesViews.save ImagesForms.lower (42, row1) w1 = (inr (42, row1), w1) ∧
    ImagesViews.get_image_or_404 42 (ImagesModels.slug row1) w1 =
      (inr (42, row1), w1).
Proof.
  intros stored row w.
  apply (save_slug ImagesForms.lower 42 row w). by exists stored.
Defined.

Lemma image_ranking_value_error_foreign_member :
  let ana := {| Auth.id := 1; Auth.username := "ana" |} in
  let store := {| Redis.unreachable := None; Redis.strings := ∅;
                  Redis.zsets := {[ "image_ranking" := {[ "7" := 2; "seven" := 1 ]} ]} |} in
  let w := {| users := [ana]; contacts := []; actions := [];
              images := ∅; images_users_like := ∅; redis := store |} in
  let request := {| Http.user := ana; Http.POST := ∅ |} in
  ImagesViews.image_ranking int_decimal request w = (inl ValueError, w).
Proof.
  intros ana store w request.
  apply (image_ranking_value_error int_decimal request w); [reflexivity|].
  apply (bool_decide_unpack _). vm_compute. exact I.
Defined.

Lemma image_detail_counters_agree_fresh :
  let ana := {| Auth.id := 1; Auth.username := "ana" |} in
  let row := {| ImagesModels.user_id := 1; ImagesModels.title := "Sunset";
                ImagesModels.slug := "sunset"; ImagesModels.url := "";
                ImagesModels.image := ""; ImagesModels.description := "";
                ImagesModels.created := 0; ImagesModels.total_likes := 0 |} in
  let w := {| users := [ana]; contacts := []; actions := [];
              images := {[ 42 := row ]}; images_users_like := ∅;
              redis := Redis.empty |} in
  let request := {| Http.user := ana; Http.POST := ∅ |} in
  counters_agree (redis (ImagesViews.image_detail request 42 "sunset" w).2).
Proof.
  intros ana row w request.
  apply (image_detail_counters_agree request 42 "sunset" w); [reflexivity|].
  intros pk. reflexivity.
Defined.

Lemma handle_ranking_wf_fresh :
  let ana := {| Auth.id := 1; Auth.username := "ana" |} in
  let row := {| ImagesModels.user_id := 1; ImagesModels.title := "Sunset";
                ImagesModels.slug := "sunset"; ImagesModels.url := "";
                ImagesModels.image := ""; ImagesModels.description := "";
                ImagesModels.created := 0; ImagesModels.total_likes := 0 |} in
  let w := {| users := [ana]; contacts := []; actions := [];
              images := {[ 42 := row ]}; images_users_like := ∅;
              redis := Redis.empty |} in
  let request := {| Http.user := ana; Http.POST := ∅ |} in
  ranking_wf (redis (handle (λ s, s) int_decimal (ImageDetail request 42 "sunset") w).2).
Proof.
  intros ana row w request.
  apply (handle_ranking_wf (λ s, s) int_decimal (ImageDetail request 42 "sunset") w).
  apply ranking_wf_empty.
Defined.

(** ** The image form: the extension check *)

Section ImageForm.
Import ImagesForms.

Lemma rsplit_dot_None s :
  rsplit_dot s = None ↔ ∀ before after, s ≠ before +:+ String dot after.
Proof.
  induction s as [|c s IH]; simpl.
  - split; [|done]. intros _ [|??] ?; discriminate.
  - destruct (rsplit_dot s) as [[a b]|] eqn:Hs.
    + split; [done|]. intros Hno.
      assert (Some (a, b) = @None (string * string)) as Hnone; [|discriminate].
      apply IH. intros before after ->. by apply (Hno (String c before) after).
    + destruct (Ascii.eqb_spec c dot) as [->|Hc].
      * split; [done|]. intros Hno. by destruct (Hno EmptyString s).
      * split; [|done]. intros _ [|c' before] after [= ? ?]; [done|].
        subst. by eapply (proj1 IH).
Qed.

(** [rsplit] cuts at the last dot: joining the two parts with a dot gives
    the text back, and the second part has no dot. *)
Lemma rsplit_dot_Some s before after :
  rsplit_dot s = Some (before, after) ↔
  s = before +:+ String dot after ∧ rsplit_dot after = None.
Proof.
  revert before. induction s as [|c s IH]; intros before; simpl.
  - split; [done|]. intros [? _]. by destruct before.
  - destruct (rsplit_dot s) as [[a b]|] eqn:Hs.
    + split.
      * intros [= <- <-]. destruct (proj1 (IH a) eq_refl) as [-> ?]. done.
      * intros [Heq Hafter]. destruct before as [|c' before]; simpl in Heq.
        -- injection Heq as -> ->. congruence.
        -- injection Heq as -> Heq.
           by injection (proj2 (IH before) (conj Heq Hafter)) as -> ->.
    + destruct (Ascii.eqb_spec c dot) as [->|Hc].
      * split.
        -- by intros [= <- <-].
        -- intros [Heq Hafter]. destruct before as [|c' before]; simpl in Heq.
           ++ by injection Heq as ->.
           ++ injection Heq as _ Heq.
              by destruct (proj1 (rsplit_dot_None s) Hs before after Heq).
      * split; [done|]. intros [Heq Hafter].
        destruct before as [|c' before]; simpl in Heq; injection Heq as ? Heq;
          [done|]. by destruct (proj1 (rsplit_dot_None s) Hs before after Heq).
Qed.

(** X21. [clean_url] returns the url unchanged, and it does so exactly
    when the text after the last dot of the url, with A to Z lowered, is
    jpg, jpeg or png. *)
Theorem clean_url_accepts url cleaned :
  clean_url url = inr cleaned ↔
  cleaned = url ∧
  ∃ before extension,
    url = before +:+ String dot extension ∧
    (∀ a b, extension ≠ a +:+ String dot b) ∧
    lower extension ∈ valid_extensions.
Proof.
  unfold clean_url, rsplit. split.
  - destruct (rsplit_dot url) as [[before after]|] eqn:Hsplit; [|done].
    simpl. case_decide as Hext; [|done]. intros [= <-]. split; [done|].
    apply rsplit_dot_Some in Hsplit as [-> Hafter].
    exists before, after. split; [done|]. split; [|done].
    by apply rsplit_dot_None.
  - intros [-> (before & extension & Hurl & Hnodot & Hext)].
    assert (rsplit_dot url = Some (before, extension)) as ->.
    { apply rsplit_dot_Some. split; [done|]. by apply rsplit_dot_None. }
    simpl. by rewrite decide_True.
Qed.

(** X22. A url without a dot makes [clean_url] raise [IndexError], not a
    validation error. *)
Theorem clean_url_no_dot url :
  (∀ before after, url ≠ before +:+ String dot after) →
  clean_url url = inl IndexError.
Proof.
  intros Hnodot. unfold clean_url, rsplit.
  by rewrite (proj2 (rsplit_dot_None url) Hnodot).
Qed.

Lemma clean_url_no_dot_localhost :
  clean_url "http://localhost/photo" = inl IndexError.
Proof.
  apply clean_url_no_dot. apply rsplit_dot_None. reflexivity.
Defined.

(** The check at work: the case of the extension does not matter, only
    the text after the last dot does. *)
Example clean_url_examples :
  clean_url "http://example.com/cat.JPG" = inr "http://example.com/cat.JPG" ∧
  clean_url "http://example.com/cat.png?size=2" =
    inl (ValidationError "The given URL does not match valid image extensions.") ∧
  clean_url "http://example.com/cat" =
    inl (ValidationError "The given URL does not match valid image extensions.").
Proof. repeat split. Qed.

End ImageForm.

(** ** The image list *)

Section ImageList.
Import Auth ImagesModels ImagesList.
Context (int : string → option Z).

Lemma num_pages_bounds {A} (objects : list A) :
  let pages := Paginator.num_pages objects 8 in
  1 ≤ pages ∧
  8 * (pages - 1) < Z.max 1 (Z.of_nat (length objects)) ≤ 8 * pages.
Proof.
  unfold Paginator.num_pages, Paginator.count. simpl.
  Z.to_euclidean_division_equations. lia.
Qed.

Lemma page_in_range {A} (objects : list A) number :
  1 ≤ number ≤ Paginator.num_pages objects 8 →
  Paginator.page int objects 8 (Paginator.IntNumber number) =
  inr {| Paginator.object_list := slice objects 8 number;
         Paginator.number := number |}.
Proof.
  intros Hrange. unfold Paginator.page, Paginator.validate_number. simpl.
  rewrite !decide_False by lia. do 2 f_equal. unfold slice, Paginator.count.
  case_decide as Htop.
  - rewrite !take_ge; [done| |]; rewrite length_drop; lia.
  - f_equal. lia.
Qed.

Lemma page_text {A} (objects : list A) s number :
  int s = Some number →
  Paginator.page int objects 8 (Paginator.TextNumber s) =
  Paginator.page int objects 8 (Paginator.IntNumber number).
Proof.
  intros Hint. unfold Paginator.page, Paginator.validate_number. simpl.
  by rewrite Hint.
Qed.

Lemma slice_length {A} (objects : list A) number :
  1 ≤ number →
  length (slice objects 8 number) =
  (8 `min` (length objects - Z.to_nat (8 * (number - 1))))%nat.
Proof.
  intros Hnumber. unfold slice. rewrite length_take, length_drop. lia.
Qed.

Lemma image_list_in_range request w s number :
  GET request !! "page" = Some s →
  int s = Some number →
  1 ≤ number ≤ Paginator.num_pages (ordering (map_to_list (images w))) 8 →
  image_list int request w =
  inr (Render (if truthy (GET request !! "images_only")
               then "images/image/list_images.html"
               else "images/image/list.html") "images"
         {| Paginator.object_list :=
              slice (ordering (map_to_list (images w))) 8 number;
            Paginator.number := number |}).
Proof.
  intros Hpage Hint Hrange. unfold image_list. rewrite Hpage. simpl.
  rewrite (page_text _ _ _ Hint), (page_in_range _ _ Hrange).
  by destruct (truthy _).
Qed.

(** X23. [image_list] never raises: it answers with an empty body, or it
    renders a page that exists, holding that page's run of at most eight
    of all images taken newest first. *)
Theorem image_list_always_answers request w :
  let all := ordering (map_to_list (images w)) in
  image_list int request w = inr (HttpResponse "") ∨
  ∃ template number,
    1 ≤ number ≤ Paginator.num_pages all 8 ∧
    (length (slice all 8 number) ≤ 8)%nat ∧
    image_list int request w =
    inr (Render template "images"
           {| Paginator.object_list := slice all 8 number;
              Paginator.number := number |}).
Proof.
  intros all. destruct (num_pages_bounds all) as [Hpages _].
  assert (∀ number, (length (slice all 8 number) ≤ 8)%nat) as Hlength.
  { intros number. unfold slice. rewrite length_take. lia. }
  unfold image_list. fold all.
  destruct (Paginator.page int all 8 _) as [[]|p] eqn:Hp.
  - right. rewrite page_in_range by lia.
    destruct (truthy _); eexists _, 1; (split; [lia|]); by split.
  - destruct (truthy _); [by left|right].
    rewrite page_in_range by lia. eexists _, _. split; [|by split]. lia.
  - right. revert Hp. unfold Paginator.page.
    destruct (Paginator.validate_number int all 8 _) as [|number] eqn:Hvalid;
      [done|].
    assert (1 ≤ number ≤ Paginator.num_pages all 8) as Hrange.
    { revert Hvalid. unfold Paginator.validate_number.
      destruct (Paginator.to_int int _); [|done].
      repeat case_decide; [done|done|]. intros [= <-]. lia. }
    pose proof (page_in_range all number Hrange) as Hpage.
    unfold Paginator.page, Paginator.validate_number in Hpage. simpl in Hpage.
    rewrite !decide_False in Hpage by lia.
    intros Hp. rewrite Hpage in Hp. injection Hp as <-.
    destruct (truthy _); eexists _, number; (split; [lia|]); by split.
Qed.

(** X24. A page number in range: [image_list] renders that page, the
    [number]-th run of eight of all images taken newest first, with the
    template that [images_only] selects. *)
Theorem image_list_page request w s number :
  GET request !! "page" = Some s →
  int s = Some number →
  1 ≤ number ≤ Paginator.num_pages (ordering (map_to_list (images w))) 8 →
  image_list int request w =
  inr (Render (if truthy (GET request !! "images_only")
               then "images/image/list_images.html"
               else "images/image/list.html") "images"
         {| Paginator.object_list :=
              slice (ordering (map_to_list (images w))) 8 number;
            Paginator.number := number |}).
Proof. apply image_list_in_range. Qed.

(** X25. No page parameter, or one that is not an integer: [image_list]
    renders the first page, whatever [images_only] says. *)
Theorem image_list_not_an_integer request w :
  GET request !! "page" ≫= int = None →
  image_list int request w =
  inr (Render (if truthy (GET request !! "images_only")
               then "images/image/list_images.html"
               else "images/image/list.html") "images"
         {| Paginator.object_list :=
              take 8 (ordering (map_to_list (images w)));
            Paginator.number := 1 |}).
Proof.
  intros Hpage. unfold image_list.
  set (all := ordering (map_to_list (images w))).
  destruct (num_pages_bounds all) as [Hpages _].
  assert (Paginator.page int all 8
            (from_option Paginator.TextNumber Paginator.NoNumber
               (GET request !! "page")) = inl Paginator.PageNotAnInteger) as ->.
  { unfold Paginator.page, Paginator.validate_number.
    destruct (GET request !! "page") as [s|]; simpl in *; by rewrite ?Hpage. }
  rewrite page_in_range by lia. by destruct (truthy _).
Qed.

(** X26. A page number below 1 or beyond the last page: [image_list]
    answers with an empty body when [images_only] is set, and renders
    the last page otherwise. *)
Theorem image_list_out_of_range request w s number :
  let all := ordering (map_to_list (images w)) in
  GET request !! "page" = Some s →
  int s = Some number →
  number < 1 ∨ Paginator.num_pages all 8 < number →
  image_list int request w =
  inr (if truthy (GET request !! "images_only") then HttpResponse ""
       else Render "images/image/list.html" "images"
              {| Paginator.object_list :=
                   drop (Z.to_nat (8 * (Paginator.num_pages all 8 - 1))) all;
                 Paginator.number := Paginator.num_pages all 8 |}).
Proof.
  intros all Hpage Hint Hrange. unfold image_list. fold all.
  destruct (num_pages_bounds all) as [Hpages Hcount].
  rewrite Hpage. simpl.
  assert (Paginator.page int all 8 (Paginator.TextNumber s) =
          inl Paginator.EmptyPage) as ->.
  { unfold Paginator.page, Paginator.validate_number. simpl. rewrite Hint.
    case_decide; [done|]. case_decide; [done|lia]. }
  destruct (truthy _); [done|]. rewrite page_in_range by lia.
  do 3 f_equal. unfold slice.
  replace ((Paginator.num_pages all 8 - 1) * 8)
    with (8 * (Paginator.num_pages all 8 - 1)) by lia.
  apply take_ge. rewrite length_drop. lia.
Qed.

Lemma slices_cover {A} (pages : nat) : ∀ objects : list A,
  (length objects ≤ 8 * pages)%nat →
  mjoin ((λ i : nat, take 8 (drop (8 * i) objects)) <$> seq 0 pages) = objects.
Proof.
  induction pages as [|pages IH]; intros objects Hlength.
  - by destruct objects; [|simpl in Hlength; lia].
  - change (seq 0 (S pages)) with (0%nat :: seq 1 pages).
    rewrite fmap_cons. change (mjoin (?x :: ?l)) with (x ++ mjoin l).
    rewrite <- fmap_S_seq, <- list_fmap_compose.
    transitivity (take 8 objects ++ drop 8 objects); [|apply take_drop].
    f_equal. rewrite <- (IH (drop 8 objects)) at 1 by (rewrite length_drop; lia).
    f_equal. apply list_fmap_ext. intros _ i _. simpl.
    rewrite drop_drop. do 2 f_equal. lia.
Qed.

(** X27. Walking the list page by page shows every image once: asked for
    pages 1 to the last, each by its number in decimal, [image_list]
    renders pages whose images, put end to end, are all images newest
    first; no page has more than eight, and none is empty unless there is
    no image at all. *)
Theorem image_list_pages_cover user w :
  (∀ number, int (str number) = Some number) →
  let all := ordering (map_to_list (images w)) in
  ∃ pages,
    Forall2
      (λ number page,
         image_list int {| user := user; GET := {[ "page" := str number ]} |} w
         = inr (Render "images/image/list.html" "images" page))
      (seqZ 1 (Paginator.num_pages all 8)) pages ∧
    mjoin (Paginator.object_list <$> pages) = all ∧
    Forall (λ page, (length (Paginator.object_list page) ≤ 8)%nat) pages ∧
    (all ≠ [] → Forall (λ page, Paginator.object_list page ≠ []) pages).
Proof.
  intros Hint all. destruct (num_pages_bounds all) as [Hpages Hcount].
  exists ((λ number, {| Paginator.object_list := slice all 8 number;
                        Paginator.number := number |})
          <$> seqZ 1 (Paginator.num_pages all 8)).
  split; [|split; [|split]].
  - apply Forall2_fmap_r, Forall_Forall2_diag, Forall_forall.
    intros number Hnumber%elem_of_seqZ.
    rewrite (image_list_in_range _ w (str number) number);
      [done|by simplify_map_eq|done|]. fold all. lia.
  - rewrite <- list_fmap_compose. unfold seqZ. rewrite <- list_fmap_compose.
    rewrite <- (slices_cover (Z.to_nat (Paginator.num_pages all 8)) all)
      at 2 by lia.
    f_equal. apply list_fmap_ext. intros _ i _. simpl. unfold slice.
    do 2 f_equal. lia.
  - apply Forall_fmap, Forall_forall. intros number _. simpl.
    unfold slice. rewrite length_take. lia.
  - intros Hall. apply Forall_fmap, Forall_forall.
    intros number Hnumber%elem_of_seqZ. simpl.
    assert (length all ≠ 0)%nat as Hsome by by destruct all.
    intros Hnil%(f_equal length). rewrite slice_length in Hnil by lia.
    cbn [length] in Hnil. lia.
Qed.
End ImageList.

Lemma image_list_page_second :
  let ana := {| Auth.id := 1; Auth.username := "ana" |} in
  let photo created :=
    {| ImagesModels.user_id := 1; ImagesModels.title := "Sunset";
       ImagesModels.slug := "sunset"; ImagesModels.url := "";
       ImagesModels.image := ""; ImagesModels.description := "";
       ImagesModels.created := created; ImagesModels.total_likes := 0 |} in
  let w := {| users := [ana]; contacts := []; actions := [];
              images := list_to_map ((λ pk, (pk, photo pk)) <$> seqZ 1 9);
              images_users_like := ∅; redis := Redis.empty |} in
  let request := {| ImagesList.user := ana;
                    ImagesList.GET := {[ "page" := "2" ]} |} in
  ImagesList.image_list int_decimal request w =
  inr (ImagesList.Render "images/image/list.html" "images"
         {| Paginator.object_list := [(1, photo 1)];
            Paginator.number := 2 |}).
Proof.
  intros ana photo w request.
  apply (image_list_page int_decimal request w "2" 2);
    [reflexivity|reflexivity|by vm_compute].
Defined.

Lemma image_list_not_an_integer_abc :
  let ana := {| Auth.id := 1; Auth.username := "ana" |} in
  let photo created :=
    {| ImagesModels.user_id := 1; ImagesModels.title := "Sunset";
       ImagesModels.slug := "sunset"; ImagesModels.url := "";
       ImagesModels.image := ""; ImagesModels.description := "";
       ImagesModels.created := created; ImagesModels.total_likes := 0 |} in
  let w := {| users := [ana]; contacts := []; actions := [];
              images := list_to_map ((λ pk, (pk, photo pk)) <$> seqZ 1 2);
              images_users_like := ∅; redis := Redis.empty |} in
  let request :=
    {| ImagesList.user := ana;
       ImagesList.GET := {[ "page" := "abc"; "images_only" := "1" ]} |} in
  ImagesList.image_list int_decimal request w =
  inr (ImagesList.Render "images/image/list_images.html" "images"
         {| Paginator.object_list := [(2, photo 2); (1, photo 1)];
            Paginator.number := 1 |}).
Proof.
  intros ana photo w request.
  apply (image_list_not_an_integer int_decimal request w). reflexivity.
Defined.

Lemma image_list_out_of_range_zero :
  let ana := {| Auth.id := 1; Auth.username := "ana" |} in
  let photo created :=
    {| ImagesModels.user_id := 1; ImagesModels.title := "Sunset";
       ImagesModels.slug := "sunset"; ImagesModels.url := "";
       ImagesModels.image := ""; ImagesModels.description := "";
       ImagesModels.created := created; ImagesModels.total_likes := 0 |} in
  let w := {| users := [ana]; contacts := []; actions := [];
              images := list_to_map ((λ pk, (pk, photo pk)) <$> seqZ 1 9);
              images_users_like := ∅; redis := Redis.empty |} in
  let request := {| ImagesList.user := ana;
                    ImagesList.GET := {[ "page" := "0" ]} |} in
  ImagesList.image_list int_decimal request w =
  inr (ImagesList.Render "images/image/list.html" "images"
         {| Paginator.object_list := [(1, photo 1)];
            Paginator.number := 2 |}).
Proof.
  intros ana photo w request.
  apply (image_list_out_of_range int_decimal request w "0" 0);
    [reflexivity|reflexivity|left; lia].
Defined.

Lemma image_list_pages_cover_decimal :
  let ana := {| Auth.id := 1; Auth.username := "ana" |} in
  let photo created :=
    {| ImagesModels.user_id := 1; ImagesModels.title := "Sunset";
       ImagesModels.slug := "sunset"; ImagesModels.url := "";
       ImagesModels.image := ""; ImagesModels.description := "";
       ImagesModels.created := created; ImagesModels.total_likes := 0 |} in
  let w := {| users := [ana]; contacts := []; actions := [];
              images := list_to_map ((λ pk, (pk, photo pk)) <$> seqZ 1 9);
              images_users_like := ∅; redis := Redis.empty |} in
  let all := ImagesModels.ordering (map_to_list (images w)) in
  ∃ pages,
    Forall2
      (λ number page,
         ImagesList.image_list int_decimal
           {| ImagesList.user := ana;
              ImagesList.GET := {[ "page" := str number ]} |} w
         = inr (ImagesList.Render "images/image/list.html" "images" page))
      (seqZ 1 (Paginator.num_pages all 8)) pages ∧
    mjoin (Paginator.object_list <$> pages) = all ∧
    Forall (λ page, (length (Paginator.object_list page) ≤ 8)%nat) pages ∧
    (all ≠ [] → Forall (λ page, Paginator.object_list page ≠ []) pages).
Proof.
  intros ana photo w all.
  apply (image_list_pages_cover int_decimal ana w int_decimal_str).
Defined.
